(** * Organizador de Arquivos por Extensão: the organizer of [main.js]

    A shallow embedding of [src/main.js] and the properties its specification
    states.  The definitions come first:

    - JavaScript strings and the two library functions the script applies to
      entry names, [String.prototype.toLowerCase] and [path.extname] (the
      POSIX one, after Node's [lib/path.js]);
    - the category table [FOLDER_MAPPING] and the classifier
      [getDestinationFolder];
    - the organizer [organizeDirectory] and the entry point, written in a
      small state-and-error monad against an interface [FileSystem] that
      stands for Node's [fs.promises];
    - an in-memory file system implementing that interface, and the
      vocabulary used to speak of what a run does to it.

    The properties follow: facts about extensions, about the organizer over
    any file system, about the in-memory one, and last the statements of the
    specification, C1 to C10.

    Names are modelled as [string]s of 8-bit characters.  [toLowerCase] maps
    the letters A-Z and leaves every other character alone, which is what
    JavaScript does on ASCII names.  The statement about case, C7, does not
    rest on that: it is proved for the loop body taken with any lower-casing
    function, [processItemWith]. *)

From Stdlib Require Import ZArith Ascii String.
From stdpp Require Import base tactics option list strings gmap.

Local Open Scope string_scope.
Local Open Scope Z_scope.

(** ** JavaScript strings *)

Module JsString.

(** The character code of a letter A-Z plus 32, any other character as is. *)
Definition lower_char (c : ascii) : ascii :=
  let n := nat_of_ascii c in
  if ((65 <=? n)%nat && (n <=? 90)%nat)%bool then ascii_of_nat (n + 32) else c.

Fixpoint toLowerCase (s : string) : string :=
  match s with
  | EmptyString => EmptyString
  | String c rest => String (lower_char c) (toLowerCase rest)
  end.

(** [s.slice(start, end)] for [0 <= start <= end]. *)
Definition slice (s : string) (start stop : Z) : string :=
  substring (Z.to_nat start) (Z.to_nat (stop - start)) s.

(** Truthiness of a string: only the empty string is falsy. *)
Definition truthy (s : string) : bool :=
  match s with EmptyString => false | String _ _ => true end.

(** [arr.includes(x)] on an array of strings. *)
Fixpoint includes (arr : list string) (x : string) : bool :=
  match arr with
  | [] => false
  | y :: rest => if String.eqb y x then true else includes rest x
  end.

End JsString.

(** ** [path.extname], POSIX flavour

    Node's implementation scans the path from its last character to its first,
    keeping five variables.  [extname_loop] is that loop: its list argument
    holds the characters still to visit, the one at index [i] first. *)

Module Path.

Record scan := Scan {
  startDot : Z;
  startPart : Z;
  end_ : Z;
  matchedSlash : bool;
  preDotState : Z
}.

Definition scan_init : scan :=
  {| startDot := -1; startPart := 0; end_ := -1;
     matchedSlash := true; preDotState := 0 |}.

Definition CHAR_FORWARD_SLASH : ascii := "/"%char.
Definition CHAR_DOT : ascii := "."%char.

Definition see_end (i : Z) (st : scan) : scan :=
  if end_ st =? -1
  then {| startDot := startDot st; startPart := startPart st; end_ := i + 1;
          matchedSlash := false; preDotState := preDotState st |}
  else st.

Definition see_char (code : ascii) (i : Z) (st : scan) : scan :=
  if Ascii.eqb code CHAR_DOT then
    if startDot st =? -1
    then {| startDot := i; startPart := startPart st; end_ := end_ st;
            matchedSlash := matchedSlash st; preDotState := preDotState st |}
    else if negb (preDotState st =? 1)
    then {| startDot := startDot st; startPart := startPart st; end_ := end_ st;
            matchedSlash := matchedSlash st; preDotState := 1 |}
    else st
  else if negb (startDot st =? -1)
  then {| startDot := startDot st; startPart := startPart st; end_ := end_ st;
          matchedSlash := matchedSlash st; preDotState := -1 |}
  else st.

Fixpoint extname_loop (visit : list ascii) (i : Z) (st : scan) : scan :=
  match visit with
  | [] => st
  | code :: before =>
      if Ascii.eqb code CHAR_FORWARD_SLASH then
        if negb (matchedSlash st)
        then {| startDot := startDot st; startPart := i + 1; end_ := end_ st;
                matchedSlash := matchedSlash st; preDotState := preDotState st |}
        else extname_loop before (i - 1) st
      else extname_loop before (i - 1) (see_char code i (see_end i st))
  end.

Definition no_extension (st : scan) : bool :=
  (startDot st =? -1) || (end_ st =? -1) || (preDotState st =? 0) ||
  ((preDotState st =? 1) && (startDot st =? end_ st - 1) &&
   (startDot st =? startPart st + 1)).

Definition extname (path : string) : string :=
  let chars := list_ascii_of_string path in
  let st := extname_loop (rev chars) (Z.of_nat (length chars) - 1) scan_init in
  if no_extension st then "" else JsString.slice path (startDot st) (end_ st).

End Path.

(** ** The category table and the classifier *)

(** [FOLDER_MAPPING]: an object literal whose keys are not integer-like, so
    [for ... in] visits them in the order they are written. *)
Definition FOLDER_MAPPING : list (string * list string) :=
  [ ("imagens", [".jpg"; ".jpeg"; ".png"; ".gif"; ".bmp"; ".svg"; ".webp"]);
    ("documentos", [".pdf"; ".doc"; ".docx"; ".xls"; ".xlsx"; ".ppt"; ".pptx";
                    ".txt"; ".csv"; ".rtf"]);
    ("videos", [".mp4"; ".mkv"; ".avi"; ".mov"; ".wmv"]);
    ("audios", [".mp3"; ".wav"; ".aac"; ".flac"]);
    ("arquivos_comprimidos", [".zip"; ".rar"; ".7z"; ".tar"; ".gz"]);
    ("codigo", [".js"; ".html"; ".css"; ".py"; ".java"; ".c"; ".cpp"; ".json";
                ".xml"]) ].

(** The [for (const folder in mapping)] loop of [getDestinationFolder]. *)
Fixpoint searchFolders (mapping : list (string * list string))
    (fileExtension : string) : string :=
  match mapping with
  | [] => "outros"
  | (folder, extensions) :: rest =>
      if JsString.includes extensions fileExtension then folder
      else searchFolders rest fileExtension
  end.

Definition getDestinationFolder (fileExtension : string) : string :=
  searchFolders FOLDER_MAPPING fileExtension.

(** Every name the classifier can return. *)
Definition folders : list string :=
  (FOLDER_MAPPING.*1 ++ ["outros"])%list.

(** ** Paths

    A path is the list of its components below the root.  [path.join] and
    [path.resolve] normalise what they build; [join] below is [path.join] for
    a second argument that is one component other than [.] and [..], which is
    what directory entries and category names are. *)

Abbreviation path := (list string).

Module PathOps.

Definition join (p : path) (name : string) : path := p ++ [name].

Fixpoint to_string_rel (p : path) : string :=
  match p with
  | [] => ""
  | [name] => name
  | name :: rest => name ++ "/" ++ to_string_rel rest
  end.

Definition to_string (p : path) : string := "/" ++ to_string_rel p.

(** The components of a path string, split at every [/]. *)
Fixpoint components (s : string) (current : string) : list string :=
  match s with
  | EmptyString => [current]
  | String c rest =>
      if Ascii.eqb c "/"%char then current :: components rest ""
      else components rest (current ++ String c "")
  end.

Definition normalize_step (acc : path) (component : string) : path :=
  if bool_decide (component = "") || bool_decide (component = ".") then acc
  else if bool_decide (component = "..") then removelast acc
  else acc ++ [component].

Definition is_absolute (s : string) : bool :=
  match s with String "/" _ => true | _ => false end.

(** [path.resolve(target)] in a process whose working directory is [cwd]. *)
Definition resolve (cwd : path) (target : string) : path :=
  fold_left normalize_step (components target "")
    (if is_absolute target then [] else cwd).

End PathOps.

(** ** The interface to the file system

    The four functions of [fs.promises] the script awaits.  A rejected
    promise is a [SystemError] carrying Node's [code] and [message];
    [readdir] and [stat] observe the world, [mkdir] and [rename] may change
    it, also when they fail. *)

Record SystemError := { code : string; message : string }.

Record Stats := { isDirectory : bool }.

Class FileSystem (W : Type) := {
  fs_readdir : path → W → SystemError + list string;
  fs_stat : path → W → SystemError + Stats;
  fs_mkdir_recursive : path → W → W * option SystemError;
  fs_rename : path → path → W → W * option SystemError
}.

Inductive syscall :=
  | Readdir (p : path)
  | Stat (p : path)
  | Mkdir (p : path)
  | Rename (oldPath newPath : path).

(** What a run has done so far: the state of the file system, the calls made
    to it, and the lines written to the two console streams, oldest first. *)
Record process (W : Type) := Process {
  world : W;
  calls : list syscall;
  stdout : list string;
  stderr : list string
}.
Arguments Process {W}.
Arguments world {W}.
Arguments calls {W}.
Arguments stdout {W}.
Arguments stderr {W}.

Definition start {W} (w : W) : process W :=
  {| world := w; calls := []; stdout := []; stderr := [] |}.

Definition is_rename (c : syscall) : bool :=
  match c with Rename _ _ => true | _ => false end.

Definition is_mkdir (c : syscall) : bool :=
  match c with Mkdir _ => true | _ => false end.

(** The renames and the directory creations among the calls of a run. *)
Definition renames {W} (s : process W) : list syscall := filter is_rename (calls s).
Definition mkdirs {W} (s : process W) : list syscall := filter is_mkdir (calls s).

(** ** The organizer *)

(** The extension the loop body computes for an entry name (line 63), the
    category it looks up for it (line 67) and the line it prints (line 78). *)
Definition fileExtensionOf (item : string) : string :=
  JsString.toLowerCase (Path.extname item).

Definition categoryOf (item : string) : string :=
  getDestinationFolder (fileExtensionOf item).

Definition moved_line (item destinationFolder : string) : string :=
  "Movido: " ++ item ++ " -> " ++ destinationFolder ++ "/".

Section Organizer.

Context {W : Type} `{FileSystem W}.

(** An awaited computation: it runs on a process state and either yields a
    value or throws. *)
Definition io (A : Type) : Type := process W → process W * (SystemError + A).

#[local] Instance io_ret : MRet io := λ A (a : A) s, (s, inr a).

#[local] Instance io_bind : MBind io := λ A B (k : A → io B) (c : io A) s,
  match c s with
  | (s', inr a) => k a s'
  | (s', inl e) => (s', inl e)
  end.

Definition called (c : syscall) (s : process W) : process W :=
  {| world := world s; calls := calls s ++ [c];
     stdout := stdout s; stderr := stderr s |}.

Definition with_world (w : W) (s : process W) : process W :=
  {| world := w; calls := calls s; stdout := stdout s; stderr := stderr s |}.

Definition console_log (line : string) (s : process W) : process W :=
  {| world := world s; calls := calls s;
     stdout := stdout s ++ [line]; stderr := stderr s |}.

Definition console_error (line : string) (s : process W) : process W :=
  {| world := world s; calls := calls s;
     stdout := stdout s; stderr := stderr s ++ [line] |}.

Definition log (line : string) : io unit := λ s, (console_log line s, inr ()).

Definition readdir (p : path) : io (list string) := λ s,
  (called (Readdir p) s, fs_readdir p (world s)).

Definition stat (p : path) : io Stats := λ s,
  (called (Stat p) s, fs_stat p (world s)).

Definition settle (r : W * option SystemError) (s : process W)
    : process W * (SystemError + unit) :=
  (with_world r.1 s, match r.2 with Some e => inl e | None => inr () end).

Definition mkdir (p : path) : io unit := λ s,
  settle (fs_mkdir_recursive p (world s)) (called (Mkdir p) s).

Definition rename (oldPath newPath : path) : io unit := λ s,
  settle (fs_rename oldPath newPath (world s)) (called (Rename oldPath newPath) s).

(** The body of the [for (const item of items)] loop; [continue] is
    [mret ()]. *)
Definition processItem (directoryPath : path) (item : string) : io unit :=
  let itemPath := PathOps.join directoryPath item in
  itemStats ← stat itemPath;
  if isDirectory itemStats || bool_decide (item = "main.js") then mret ()
  else
    let fileExtension := fileExtensionOf item in
    if negb (JsString.truthy fileExtension) then mret ()
    else
      let destinationFolder := getDestinationFolder fileExtension in
      let destinationPath := PathOps.join directoryPath destinationFolder in
      mkdir destinationPath;;
      let newFilePath := PathOps.join destinationPath item in
      rename itemPath newFilePath;;
      log (moved_line item destinationFolder).

Fixpoint forEachItem (directoryPath : path) (items : list string) : io unit :=
  match items with
  | [] => mret ()
  | item :: rest =>
      processItem directoryPath item;; forEachItem directoryPath rest
  end.

Definition newline : string := String "010"%char "".

Definition success_line : string :=
  newline ++ "Organização concluída com sucesso!".

Definition error_line (error : SystemError) : string :=
  newline ++ "Ocorreu um erro: " ++ message error.

Definition hint_line : string :=
  "Verifique se o caminho do diretório está correto.".

Definition tryBlock (directoryPath : path) : io unit :=
  items ← readdir directoryPath;
  forEachItem directoryPath items;;
  log success_line.

Definition catchBlock (error : SystemError) (s : process W) : process W :=
  let s := console_error (error_line error) s in
  if bool_decide (code error = "ENOENT") then console_error hint_line s else s.

Definition start_line (directoryPath : path) : string :=
  "Iniciando organização do diretório: " ++ PathOps.to_string directoryPath.

(** [organizeDirectory]: the promise it returns is always fulfilled, since
    the [catch] clause handles every rejection of the [try] block. *)
Definition organizeDirectory (directoryPath : path) (s : process W) : process W :=
  let s := console_log (start_line directoryPath) s in
  match tryBlock directoryPath s with
  | (s', inr _) => s'
  | (s', inl error) => catchBlock error s'
  end.

(** The error the [try] block of a run threw, if any. *)
Definition thrown (directoryPath : path) (s : process W) : option SystemError :=
  match tryBlock directoryPath (console_log (start_line directoryPath) s) with
  | (_, inr _) => None
  | (_, inl error) => Some error
  end.

(** The entry point.  [process.exit(1)] ends the process at once; otherwise
    the process ends when the awaited [organizeDirectory] has settled and
    nothing is left to run, with Node's default exit code 0. *)
Record exit := Exit { exitCode : Z; final : process W }.

Definition usage_error : string :=
  "ERRO: Por favor, forneça o caminho para o diretório que deseja organizar.".

Definition usage_line : string := "Uso: node main.js <caminho_do_diretorio>".

Definition main (argv : list string) (cwd : path) (w : W) : exit :=
  let targetDirectory := argv !! 2%nat in
  match targetDirectory with
  | None | Some EmptyString =>
      {| exitCode := 1;
         final := console_error usage_line (console_error usage_error (start w)) |}
  | Some targetDirectory =>
      let absolutePath := PathOps.resolve cwd targetDirectory in
      {| exitCode := 0; final := organizeDirectory absolutePath (start w) |}
  end.

End Organizer.

(** ** The loop body for any lower-casing

    [String.prototype.toLowerCase] follows the case mappings of Unicode,
    of which [JsString.toLowerCase] has the part for A-Z.  Here the
    extension, the category and the loop body are given with the
    lower-casing function as a parameter; at [JsString.toLowerCase] they are
    [fileExtensionOf], [categoryOf] and [processItem]. *)

Definition fileExtensionWith (lower : string → string) (item : string) : string :=
  lower (Path.extname item).


Section AnyLowerCasing.

Context {W : Type} `{FileSystem W} (lower : string → string).

#[local] Existing Instance io_ret.
#[local] Existing Instance io_bind.

Definition processItemWith (directoryPath : path) (item : string) : io unit :=
  let itemPath := PathOps.join directoryPath item in
  itemStats ← stat itemPath;
  if isDirectory itemStats || bool_decide (item = "main.js") then mret ()
  else
    let fileExtension := fileExtensionWith lower item in
    if negb (JsString.truthy fileExtension) then mret ()
    else
      let destinationFolder := getDestinationFolder fileExtension in
      let destinationPath := PathOps.join directoryPath destinationFolder in
      mkdir destinationPath;;
      let newFilePath := PathOps.join destinationPath item in
      rename itemPath newFilePath;;
      log (moved_line item destinationFolder).

End AnyLowerCasing.

(** ** An in-memory file system

    The world is a finite map from paths to what is found there: a regular
    file with its content, a directory, or a symbolic link whose target is
    missing.  The entries of a directory are the paths one component longer
    than its own.  The operations follow POSIX and Node: [stat] follows
    links, so a dangling link is reported as missing; [mkdir] with
    [recursive: true] accepts an existing directory and creates missing
    parents; [rename] replaces an existing file at the new path and refuses
    to put a file in the place of a directory.  Hard links, links that
    resolve, permissions and devices are not part of this model; the
    statements proved over any [FileSystem] do not depend on it. *)

Inductive node :=
  | File (content : string)
  | Dir
  | BrokenLink.

#[global] Instance node_eq_dec : EqDecision node.
Proof. solve_decision. Defined.

Module MemFs.

Abbreviation memfs := (gmap path node).

Definition describe (code : string) : string :=
  if bool_decide (code = "ENOENT") then "no such file or directory"
  else if bool_decide (code = "EEXIST") then "file already exists"
  else if bool_decide (code = "ENOTDIR") then "not a directory"
  else if bool_decide (code = "EISDIR") then "illegal operation on a directory"
  else if bool_decide (code = "ENOTEMPTY") then "directory not empty"
  else "invalid argument".

Definition quoted (p : path) : string := "'" ++ PathOps.to_string p ++ "'".

Definition error_at (code syscall where_ : string) : SystemError :=
  {| code := code;
     message := code ++ ": " ++ describe code ++ ", " ++ syscall ++ " " ++ where_ |}.

(** [strip dir p] is what follows [dir] in [p], when [p] starts with [dir]. *)
Fixpoint strip (dir p : path) : option path :=
  match dir, p with
  | [], _ => Some p
  | d :: dir', c :: p' => if bool_decide (d = c) then strip dir' p' else None
  | _ :: _, [] => None
  end.

Definition child_of (dir p : path) : option string :=
  match strip dir p with
  | Some [name] => Some name
  | _ => None
  end.

(** The names in a directory, in the order the map enumerates its keys. *)
Definition children (dir : path) (w : memfs) : list string :=
  omap (child_of dir) (map_to_list w).*1.

(** Whether the way from [walked] down the components [todo] leads
    through a regular file. *)
Fixpoint through_file (w : memfs) (walked : path) (todo : list string) : bool :=
  match todo with
  | [] => false
  | name :: rest =>
      match w !! walked with
      | Some (File _) => true
      | _ => through_file w (PathOps.join walked name) rest
      end
  end.

Definition readdir (dir : path) (w : memfs) : SystemError + list string :=
  match w !! dir with
  | Some Dir => inr (children dir w)
  | Some (File _) => inl (error_at "ENOTDIR" "scandir" (quoted dir))
  | Some BrokenLink => inl (error_at "ENOENT" "scandir" (quoted dir))
  | None =>
      inl (error_at (if through_file w [] dir then "ENOTDIR" else "ENOENT")
             "scandir" (quoted dir))
  end.

Definition stat (p : path) (w : memfs) : SystemError + Stats :=
  match w !! p with
  | Some (File _) => inr {| isDirectory := false |}
  | Some Dir => inr {| isDirectory := true |}
  | Some BrokenLink | None => inl (error_at "ENOENT" "stat" (quoted p))
  end.

(** [mkdir -p]: nothing to do for a directory; otherwise make the parent
    first.  A regular file in the way is [EEXIST] at the path asked for and
    [ENOTDIR] above it; a dangling link in the way is [ENOENT], the [stat]
    that follows the refused [mkdir] finding nothing.  The path is given
    with its last component first. *)
Fixpoint mkdir_up (full : path) (reversed : list string) (w : memfs)
    : memfs * option SystemError :=
  let p := rev reversed in
  match w !! p with
  | Some Dir => (w, None)
  | Some (File _) =>
      (w, Some (error_at (if bool_decide (p = full) then "EEXIST" else "ENOTDIR")
                  "mkdir" (quoted full)))
  | Some BrokenLink => (w, Some (error_at "ENOENT" "mkdir" (quoted full)))
  | None =>
      match reversed with
      | [] => (<[p := Dir]> w, None)
      | _ :: parent =>
          match mkdir_up full parent w with
          | (w', None) => (<[p := Dir]> w', None)
          | (w', Some e) => (w', Some e)
          end
      end
  end.

Definition mkdir_recursive (p : path) (w : memfs) : memfs * option SystemError :=
  mkdir_up p (rev p) w.

Definition rekey (oldPath newPath p : path) : path :=
  match strip oldPath p with
  | Some below => newPath ++ below
  | None => p
  end.

(** Moving a directory takes everything below it along. *)
Definition move_tree (oldPath newPath : path) (w : memfs) : memfs :=
  list_to_map
    (map (λ entry : path * node, (rekey oldPath newPath entry.1, entry.2))
       (map_to_list (delete newPath w))).

Definition rename (oldPath newPath : path) (w : memfs)
    : memfs * option SystemError :=
  let where_ := quoted oldPath ++ " -> " ++ quoted newPath in
  let fail code := (w, Some (error_at code "rename" where_)) in
  match w !! oldPath with
  | None => fail "ENOENT"
  | Some moved =>
      match w !! removelast newPath with
      | Some Dir =>
          if bool_decide (oldPath = newPath) then (w, None)
          else
            match moved, w !! newPath with
            | Dir, Some Dir =>
                if bool_decide (children newPath w = []) then
                  (move_tree oldPath newPath w, None)
                else fail "ENOTEMPTY"
            | Dir, Some _ => fail "ENOTDIR"
            | Dir, None =>
                if bool_decide (is_Some (strip oldPath newPath)) then fail "EINVAL"
                else (move_tree oldPath newPath w, None)
            | _, Some Dir => fail "EISDIR"
            | _, _ => (<[newPath := moved]> (delete oldPath w), None)
            end
      | Some (File _) => fail "ENOTDIR"
      | Some BrokenLink | None => fail "ENOENT"
      end
  end.

End MemFs.

#[global] Instance memfs_FileSystem : FileSystem (gmap path node) := {
  fs_readdir := MemFs.readdir;
  fs_stat := MemFs.stat;
  fs_mkdir_recursive := MemFs.mkdir_recursive;
  fs_rename := MemFs.rename
}.

(** The scenario of the specification, in [/home/u/bagunca]. *)
Definition bagunca : path := ["home"; "u"; "bagunca"].

Definition scenario : gmap path node :=
  list_to_map
    [ ([], Dir); (["home"], Dir); (["home"; "u"], Dir); (bagunca, Dir);
      (PathOps.join bagunca "photo.JPG", File "jpeg data");
      (PathOps.join bagunca "notes.txt", File "remember");
      (PathOps.join bagunca "archive.zip", File "PK");
      (PathOps.join bagunca "run", File "#!/bin/sh");
      (PathOps.join bagunca "backup", Dir);
      (PathOps.join (PathOps.join bagunca "backup") "old.txt", File "old") ].

(** The same directory with a dangling symbolic link among its entries. *)
Definition dangling : gmap path node :=
  list_to_map
    [ ([], Dir); (["home"], Dir); (["home"; "u"], Dir); (bagunca, Dir);
      (PathOps.join bagunca "notes.txt", File "remember");
      (PathOps.join bagunca "atalho.pdf", BrokenLink);
      (PathOps.join bagunca "photo.JPG", File "jpeg data");
      (PathOps.join bagunca "main.js", File "script");
      (PathOps.join bagunca "song.mp3", File "la la") ].

(** ... and with a file that has the name of a category folder. *)
Definition blocked : gmap path node :=
  list_to_map
    [ ([], Dir); (["home"], Dir); (["home"; "u"], Dir); (bagunca, Dir);
      (PathOps.join bagunca "notes.txt", File "remember");
      (PathOps.join bagunca "imagens", File "not a folder");
      (PathOps.join bagunca "photo.JPG", File "jpeg data");
      (PathOps.join bagunca "song.mp3", File "la la") ].


(** ... with a file of the same name already in the category folder. *)
Definition crowded : gmap path node :=
  list_to_map
    [ ([], Dir); (["home"], Dir); (["home"; "u"], Dir); (bagunca, Dir);
      (PathOps.join bagunca "notes.txt", File "new");
      (PathOps.join bagunca "documentos", Dir);
      (PathOps.join (PathOps.join bagunca "documentos") "notes.txt", File "old") ].

(** ... and with a directory of that name there. *)
Definition nested : gmap path node :=
  list_to_map
    [ ([], Dir); (["home"], Dir); (["home"; "u"], Dir); (bagunca, Dir);
      (PathOps.join bagunca "notes.txt", File "new");
      (PathOps.join bagunca "documentos", Dir);
      (PathOps.join (PathOps.join bagunca "documentos") "notes.txt", Dir) ].


(** ** What a run does to one entry of the in-memory file system

    The path an entry is moved to (lines 68 and 75), the entries for which
    the loop body gets as far as the move (lines 58 and 64), and the five
    ways the body can end. *)

Definition destinationOf (dir : path) (item : string) : path :=
  PathOps.join (PathOps.join dir (categoryOf item)) item.

(** The error code of [mkdir] when what is at the path is not a directory. *)
Definition blockedCode (x : node) : string :=
  match x with BrokenLink => "ENOENT" | _ => "EEXIST" end.

Definition folderCode (w : gmap path node) (dir : path) (item : string) : string :=
  match w !! PathOps.join dir (categoryOf item) with
  | Some x => blockedCode x
  | None => "EEXIST"
  end.

Definition eligible (w : gmap path node) (dir : path) (item : string) : bool :=
  match w !! PathOps.join dir item with
  | Some (File _) =>
      negb (bool_decide (item = "main.js")) && JsString.truthy (fileExtensionOf item)
  | _ => false
  end.

Inductive fate :=
  | Vanished
  | Skipped
  | FolderBlocked
  | TargetIsDirectory
  | Moved (content : string).

Definition fateOf (w : gmap path node) (dir : path) (item : string) : fate :=
  match w !! PathOps.join dir item with
  | None | Some BrokenLink => Vanished
  | Some Dir => Skipped
  | Some (File content) =>
      if bool_decide (item = "main.js") || negb (JsString.truthy (fileExtensionOf item))
      then Skipped
      else
        match w !! PathOps.join dir (categoryOf item) with
        | Some (File _) | Some BrokenLink => FolderBlocked
        | Some Dir | None =>
            match w !! destinationOf dir item with
            | Some Dir => TargetIsDirectory
            | _ => Moved content
            end
        end
  end.

Definition withFolder (dir : path) (item : string) (w : gmap path node)
    : gmap path node :=
  <[PathOps.join dir (categoryOf item) := Dir]> w.

Definition moveFile (dir : path) (item content : string) (w : gmap path node)
    : gmap path node :=
  <[destinationOf dir item := File content]>
    (delete (PathOps.join dir item) (withFolder dir item w)).

Definition after (dir : path) (item : string) (w : gmap path node)
    : gmap path node :=
  match fateOf w dir item with
  | Moved content => moveFile dir item content w
  | TargetIsDirectory => withFolder dir item w
  | _ => w
  end.

(** Where a run of the organizer on [dir] puts what is at [p] in [w]. *)
Definition relocate (w : gmap path node) (dir p : path) : path :=
  match MemFs.child_of dir p with
  | Some item => if eligible w dir item then destinationOf dir item else p
  | None => p
  end.

(** The calls a successful run makes for an entry. *)
Definition callsFor (w : gmap path node) (dir : path) (item : string)
    : list syscall :=
  if eligible w dir item
  then [ Stat (PathOps.join dir item);
         Mkdir (PathOps.join dir (categoryOf item));
         Rename (PathOps.join dir item) (destinationOf dir item) ]
  else [ Stat (PathOps.join dir item) ].

(** Whether the loop goes on to the next entry. *)
Definition continues (f : fate) : bool :=
  match f with
  | Skipped | Moved _ => true
  | Vanished | FolderBlocked | TargetIsDirectory => false
  end.

(** The loop on worlds: [sweep dir items w w' ok] when running the loop body
    over [items] from [w] ends in [w'], having gone through all of them
    ([ok = true]) or having stopped at the first that threw. *)
Inductive sweep (dir : path) : list string → gmap path node → gmap path node → bool → Prop :=
  | sweep_done w : sweep dir [] w w true
  | sweep_next item rest w w' ok :
      continues (fateOf w dir item) = true →
      sweep dir rest (after dir item w) w' ok →
      sweep dir (item :: rest) w w' ok
  | sweep_abort item rest w :
      continues (fateOf w dir item) = false →
      sweep dir (item :: rest) w (after dir item w) false.

(** The lines a successful run prints for the entries it moves. *)
Definition linesFor (w : gmap path node) (dir : path) (item : string)
    : list string :=
  if eligible w dir item then [moved_line item (categoryOf item)] else [].

(** Whether an awaited computation was fulfilled. *)
Definition succeeded {A} (r : SystemError + A) : bool :=
  match r with inr _ => true | inl _ => false end.

(** The state in which the loop starts: the opening line printed, the
    listing read. *)
Definition listed (dir : path) (w : gmap path node) : process (gmap path node) :=
  called (Readdir dir) (console_log (start_line dir) (start w)).

(** The paths a run may touch, as a decidable property of a path. *)
Definition touched (w : gmap path node) (dir : path) (items : list string)
    (p : path) : Prop :=
  Exists (λ item, eligible w dir item = true ∧
                  (p = PathOps.join dir item ∨ p = destinationOf dir item ∨
                   p = PathOps.join dir (categoryOf item))) items.

#[global] Instance touched_dec w dir items p : Decision (touched w dir items p).
Proof. unfold touched. apply _. Defined.

Ltac split_calls :=
  repeat match goal with
  | H : _ ∨ _ |- _ => destruct H as [H|H]
  | H : @eq syscall _ _ |- _ => first [discriminate H | injection H as -> ->]
  end.

(** The calls the loop body makes for an entry when it gets to the end:
    lines 55, 72 and 76. *)
Definition itemCalls (dir : path) (item : string) : list syscall :=
  [ Stat (PathOps.join dir item);
    Mkdir (PathOps.join dir (categoryOf item));
    Rename (PathOps.join dir item)
      (PathOps.join (PathOps.join dir (categoryOf item)) item) ].

(** The entries of a directory that a run moves, in the order of the
    listing. *)
Definition movedEntries (w : gmap path node) (dir : path) : list string :=
  filter (λ item, eligible w dir item = true) (MemFs.children dir w).

(** Case analysis over the entries of [FOLDER_MAPPING] and the extensions
    of each: [tac ()] is run with the entry and the extension in place. *)
Ltac table_cases Hentry Hext tac :=
  unfold FOLDER_MAPPING in Hentry;
  repeat (apply elem_of_cons in Hentry as [Hentry|Hentry];
          [ injection Hentry as -> ->;
            repeat (apply elem_of_cons in Hext as [->|Hext]; [tac ()|]);
            by apply elem_of_nil in Hext
          | ]);
  by apply elem_of_nil in Hentry.

(** * Properties *)

Local Open Scope list_scope.

(** ** Strings and extensions *)

Section Strings.

Import JsString Path.

Lemma includes_spec (arr : list string) (x : string) :
  includes arr x = true ↔ x ∈ arr.
Proof.
  induction arr as [|y arr IH]; simpl.
  - split; [discriminate | by intros ?%elem_of_nil].
  - destruct (String.eqb_spec y x) as [->|Hne].
    + split; [intros _; left | done].
    + rewrite IH. split; [by right | intros [?|?]%elem_of_cons; congruence].
Qed.

Lemma includes_false (arr : list string) (x : string) :
  includes arr x = false ↔ x ∉ arr.
Proof.
  rewrite <- includes_spec. destruct (includes arr x); split; congruence.
Qed.

Lemma truthy_false (s : string) : truthy s = false ↔ s = "".
Proof. destruct s; simpl; split; congruence. Qed.

Lemma toLowerCase_empty (s : string) : toLowerCase s = "" ↔ s = "".
Proof. destruct s; simpl; split; congruence. Qed.

Lemma lower_char_dot (c : ascii) :
  Ascii.eqb (lower_char c) CHAR_DOT = Ascii.eqb c CHAR_DOT.
Proof. destruct c as [[] [] [] [] [] [] [] []]; reflexivity. Qed.

Lemma lower_char_slash (c : ascii) :
  Ascii.eqb (lower_char c) CHAR_FORWARD_SLASH = Ascii.eqb c CHAR_FORWARD_SLASH.
Proof. destruct c as [[] [] [] [] [] [] [] []]; reflexivity. Qed.

Lemma see_char_lower (c : ascii) (i : Z) (st : scan) :
  see_char (lower_char c) i st = see_char c i st.
Proof. unfold see_char. by rewrite lower_char_dot. Qed.

Lemma extname_loop_lower (visit : list ascii) (i : Z) (st : scan) :
  extname_loop (map lower_char visit) i st = extname_loop visit i st.
Proof.
  revert i st. induction visit as [|c visit IH]; intros i st; simpl; [done|].
  rewrite lower_char_slash, see_char_lower, !IH. done.
Qed.

Lemma chars_toLowerCase (s : string) :
  list_ascii_of_string (toLowerCase s) = map lower_char (list_ascii_of_string s).
Proof. induction s as [|c s IH]; simpl; [done | by rewrite IH]. Qed.

Lemma substring_toLowerCase (n m : nat) (s : string) :
  substring n m (toLowerCase s) = toLowerCase (substring n m s).
Proof.
  revert n m. induction s as [|c s IH]; intros n m; simpl.
  - by destruct n, m.
  - destruct n as [|n]; [destruct m as [|m]|]; simpl; by rewrite ?IH.
Qed.

(** Lower-casing a name lower-cases its extension and nothing else about it. *)
Lemma extname_toLowerCase (s : string) :
  extname (toLowerCase s) = toLowerCase (extname s).
Proof.
  unfold extname, slice.
  rewrite chars_toLowerCase, <- map_rev, extname_loop_lower, length_map.
  destruct (no_extension _); [done | apply substring_toLowerCase].
Qed.

Lemma elem_of_rev {A} (x : A) (l : list A) : x ∈ rev l ↔ x ∈ l.
Proof. rewrite !list_elem_of_In. symmetry. apply in_rev. Qed.

(** The loop never finds a dot in a name that has none. *)
Lemma extname_loop_no_dot (visit : list ascii) (i : Z) (st : scan) :
  CHAR_DOT ∉ visit → startDot st = -1 →
  startDot (extname_loop visit i st) = -1.
Proof.
  revert i st. induction visit as [|c visit IH]; intros i st Hno Hst; simpl; [done|].
  apply not_elem_of_cons in Hno as [Hc Hno].
  destruct (Ascii.eqb c CHAR_FORWARD_SLASH).
  - destruct (negb (matchedSlash st)); simpl; [done | by apply IH].
  - apply IH; [done|]. unfold see_char.
    destruct (Ascii.eqb_spec c CHAR_DOT) as [->|_]; [done|].
    unfold see_end. destruct (end_ st =? -1); simpl; rewrite Hst; done.
Qed.

(** A leading dot that is the only dot of the name starts no extension. *)
Lemma extname_loop_leading_dot (visit : list ascii) (i : Z) (st : scan) :
  CHAR_DOT ∉ visit → startDot st = -1 → preDotState st = 0 →
  let st' := extname_loop (visit ++ [CHAR_DOT]) i st in
  startDot st' = -1 ∨ preDotState st' = 0.
Proof.
  revert i st. induction visit as [|c visit IH]; intros i st Hno Hst Hpre; simpl.
  - right. unfold see_char, see_end. simpl.
    destruct (end_ st =? -1); simpl; rewrite Hst; simpl; done.
  - apply not_elem_of_cons in Hno as [Hc Hno].
    destruct (Ascii.eqb c CHAR_FORWARD_SLASH).
    + destruct (negb (matchedSlash st)); simpl; [by left | by apply IH].
    + apply IH; [done| |]; unfold see_char;
        (destruct (Ascii.eqb_spec c CHAR_DOT) as [->|_]; [done|]);
        unfold see_end; destruct (end_ st =? -1); simpl; rewrite Hst; done.
Qed.

Lemma extname_no_dot (name : string) :
  CHAR_DOT ∉ list_ascii_of_string name → extname name = "".
Proof.
  intros Hno. unfold extname, no_extension.
  rewrite extname_loop_no_dot; [done | | done].
  by rewrite elem_of_rev.
Qed.

Lemma extname_dotfile (rest : string) :
  CHAR_DOT ∉ list_ascii_of_string rest → extname (String CHAR_DOT rest) = "".
Proof.
  intros Hno. unfold extname, no_extension.
  cbn [list_ascii_of_string rev].
  destruct (extname_loop_leading_dot (rev (list_ascii_of_string rest))
    (Z.of_nat (length (CHAR_DOT :: list_ascii_of_string rest)) - 1) scan_init)
    as [Hd|Hp]; try done.
  - by rewrite elem_of_rev.
  - by rewrite Hd.
  - rewrite Hp. simpl. by rewrite !orb_true_r.
Qed.

End Strings.

(** ** The classifier *)

Lemma searchFolders_first_match (mapping : list (string * list string)) (e : string) :
  (∃ pre folder extensions post,
      mapping = pre ++ (folder, extensions) :: post ∧
      e ∈ extensions ∧
      Forall (λ entry, e ∉ entry.2) pre ∧
      searchFolders mapping e = folder) ∨
  (Forall (λ entry, e ∉ entry.2) mapping ∧ searchFolders mapping e = "outros").
Proof.
  induction mapping as [|[folder extensions] mapping IH]; simpl.
  - right. by split.
  - destruct (JsString.includes extensions e) eqn:Hinc.
    + left. exists [], folder, extensions, mapping.
      apply includes_spec in Hinc. by repeat split.
    + apply includes_false in Hinc.
      destruct IH as [(pre & f & x & post & -> & Hin & Hpre & Hres)|[Hall Hres]].
      * left. exists ((folder, extensions) :: pre), f, x, post.
        repeat split; [done | by constructor | done].
      * right. split; [by constructor | done].
Qed.

Lemma searchFolders_range (mapping : list (string * list string)) (e : string) :
  searchFolders mapping e ∈ mapping.*1 ++ ["outros"].
Proof.
  induction mapping as [|[folder extensions] mapping IH]; simpl.
  - by left.
  - destruct (JsString.includes extensions e); [by left | by right].
Qed.

Lemma getDestinationFolder_range (e : string) : getDestinationFolder e ∈ folders.
Proof. apply searchFolders_range. Qed.

(** No category name has an extension of its own, and none is the script's
    name: a category folder is never taken for a file to move. *)
Lemma folders_plain (name : string) :
  name ∈ folders → Path.extname name = "" ∧ name ≠ "main.js".
Proof.
  unfold folders. cbn.
  intros Hin. repeat (apply elem_of_cons in Hin as [->|Hin]; [by split|]).
  by apply elem_of_nil in Hin.
Qed.

Lemma category_plain (item : string) :
  fileExtensionOf (categoryOf item) = "" ∧ categoryOf item ≠ "main.js".
Proof.
  destruct (folders_plain (categoryOf item)) as [Hext Hne].
  - apply getDestinationFolder_range.
  - split; [|done]. unfold fileExtensionOf. by rewrite Hext.
Qed.

(** ** The organizer over any file system *)

Section OrganizerFacts.

Context {W : Type} `{FileSystem W}.

Implicit Types (s : process W) (dir : path) (item : string).

Lemma processItem_stat_fails dir item s e :
  fs_stat (PathOps.join dir item) (world s) = inl e →
  processItem dir item s = (called (Stat (PathOps.join dir item)) s, inl e).
Proof. intros Hst. unfold processItem, mbind, io_bind, stat. by rewrite Hst. Qed.

Lemma processItem_skipped dir item s st :
  fs_stat (PathOps.join dir item) (world s) = inr st →
  isDirectory st || bool_decide (item = "main.js") = true →
  processItem dir item s = (called (Stat (PathOps.join dir item)) s, inr ()).
Proof.
  intros Hst Hskip. unfold processItem, mbind, io_bind, stat.
  by rewrite Hst, Hskip.
Qed.

Lemma processItem_no_extension dir item s st :
  fs_stat (PathOps.join dir item) (world s) = inr st →
  fileExtensionOf item = "" →
  processItem dir item s = (called (Stat (PathOps.join dir item)) s, inr ()).
Proof.
  intros Hst Hext. unfold processItem, mbind, io_bind, stat.
  rewrite Hst, Hext. simpl. by destruct (_ || _).
Qed.

(** The three calls made for an entry that is to be moved, and where each
    of them can throw. *)
Lemma processItem_moving dir item s st :
  fs_stat (PathOps.join dir item) (world s) = inr st →
  isDirectory st || bool_decide (item = "main.js") = false →
  fileExtensionOf item ≠ "" →
  let itemPath := PathOps.join dir item in
  let destinationPath := PathOps.join dir (categoryOf item) in
  let newFilePath := PathOps.join destinationPath item in
  let s1 := called (Mkdir destinationPath) (called (Stat itemPath) s) in
  let made := fs_mkdir_recursive destinationPath (world s) in
  let s2 := called (Rename itemPath newFilePath) (with_world made.1 s1) in
  let renamed := fs_rename itemPath newFilePath made.1 in
  processItem dir item s =
    match made.2 with
    | Some e => (with_world made.1 s1, inl e)
    | None =>
        match renamed.2 with
        | Some e => (with_world renamed.1 s2, inl e)
        | None =>
            (console_log (moved_line item (categoryOf item))
               (with_world renamed.1 s2), inr ())
        end
    end.
Proof.
  intros Hst Hskip Hext. simpl.
  unfold processItem, mbind, io_bind, stat, mkdir, rename, settle, log.
  rewrite Hst, Hskip.
  destruct (fileExtensionOf item) eqn:Hfe; [done|]. simpl.
  unfold categoryOf. rewrite Hfe.
  destruct (fs_mkdir_recursive _ _) as [w1 [e|]]; simpl; [done|].
  destruct (fs_rename _ _ _) as [w2 [e|]]; simpl; done.
Qed.

Lemma forEachItem_app dir (pre post : list string) s :
  forEachItem dir (pre ++ post) s =
    match forEachItem dir pre s with
    | (s1, inr _) => forEachItem dir post s1
    | (s1, inl e) => (s1, inl e)
    end.
Proof.
  revert s. induction pre as [|item pre IH]; intros s; simpl; [done|].
  unfold mbind, io_bind. destruct (processItem dir item s) as [s1 [e|[]]]; [done|].
  apply IH.
Qed.

(** Once an entry throws, the loop is over: what follows it in the listing
    plays no part in the result. *)
Lemma forEachItem_aborts dir (pre post : list string) item s s1 sF e :
  forEachItem dir pre s = (s1, inr ()) →
  processItem dir item s1 = (sF, inl e) →
  forEachItem dir (pre ++ item :: post) s = (sF, inl e).
Proof.
  intros Hpre Hitem. rewrite forEachItem_app, Hpre. simpl.
  unfold mbind, io_bind. by rewrite Hitem.
Qed.

(** The calls a throwing entry has made: its [stat], then perhaps the
    [mkdir] of its folder, then perhaps its [rename]; the last one threw. *)
Lemma processItem_failure_calls dir item s sF e :
  processItem dir item s = (sF, inl e) →
  stdout sF = stdout s ∧ stderr sF = stderr s ∧
  ∃ suffix, calls sF = calls s ++ suffix ∧
    let itemPath := PathOps.join dir item in
    let destinationPath := PathOps.join dir (categoryOf item) in
    (suffix = [Stat itemPath] ∨
     suffix = [Stat itemPath; Mkdir destinationPath] ∨
     suffix = [Stat itemPath; Mkdir destinationPath;
               Rename itemPath (PathOps.join destinationPath item)]).
Proof.
  destruct (fs_stat (PathOps.join dir item) (world s)) as [e'|st] eqn:Hst.
  { rewrite (processItem_stat_fails _ _ _ _ Hst). intros [= <- <-].
    repeat split; try done. eexists. split; [done|]. by left. }
  destruct (isDirectory st || bool_decide (item = "main.js")) eqn:Hskip.
  { by rewrite (processItem_skipped _ _ _ _ Hst Hskip). }
  destruct (decide (fileExtensionOf item = "")) as [Hext|Hext].
  { by rewrite (processItem_no_extension _ _ _ _ Hst Hext). }
  rewrite (processItem_moving _ _ _ _ Hst Hskip Hext).
  destruct (fs_mkdir_recursive _ _) as [w1 [e1|]]; simpl.
  { intros [= <- <-]. simpl. repeat split; try done.
    eexists. split; [by rewrite <- app_assoc|]. right. by left. }
  destruct (fs_rename _ _ _) as [w2 [e2|]]; simpl; [|done].
  intros [= <- <-]. simpl. repeat split; try done.
  eexists. split; [by rewrite <- !app_assoc|]. right. by right.
Qed.

(** The loop writes nothing to standard error. *)
Lemma processItem_stderr dir item s s' r :
  processItem dir item s = (s', r) → stderr s' = stderr s.
Proof.
  unfold processItem, mbind, io_bind, stat, mkdir, rename, settle, log.
  destruct (fs_stat _ _) as [?|st]; [by intros [= <- _]|].
  destruct (_ || _); [by intros [= <- _]|].
  destruct (negb _); [by intros [= <- _]|].
  destruct (fs_mkdir_recursive _ _) as [? [?|]]; simpl; [by intros [= <- _]|].
  destruct (fs_rename _ _ _) as [? [?|]]; simpl; by intros [= <- _].
Qed.

Lemma forEachItem_stderr dir items s s' r :
  forEachItem dir items s = (s', r) → stderr s' = stderr s.
Proof.
  revert s. induction items as [|item items IH]; intros s; simpl.
  - by intros [= <- _].
  - unfold mbind, io_bind.
    destruct (processItem dir item s) as [s1 [e|[]]] eqn:Hitem.
    + intros [= <- _]. by eapply processItem_stderr.
    + intros Hrest. rewrite (IH _ Hrest). by eapply processItem_stderr.
Qed.

Lemma organizeDirectory_listing_fails dir w e :
  fs_readdir dir w = inl e →
  organizeDirectory dir (start w) =
    catchBlock e (called (Readdir dir) (console_log (start_line dir) (start w))).
Proof.
  intros Hrd. unfold organizeDirectory, tryBlock, mbind, io_bind, readdir.
  simpl. by rewrite Hrd.
Qed.

Lemma organizeDirectory_loop dir w items :
  fs_readdir dir w = inr items →
  organizeDirectory dir (start w) =
    match forEachItem dir items
            (called (Readdir dir) (console_log (start_line dir) (start w))) with
    | (s, inr _) => console_log success_line s
    | (s, inl e) => catchBlock e s
    end.
Proof.
  intros Hrd. unfold organizeDirectory, tryBlock, mbind, io_bind, readdir, log.
  simpl. rewrite Hrd. by destruct (forEachItem _ _ _) as [s [e|[]]].
Qed.

Lemma thrown_loop dir w items :
  fs_readdir dir w = inr items →
  thrown dir (start w) =
    match forEachItem dir items
            (called (Readdir dir) (console_log (start_line dir) (start w))) with
    | (_, inr _) => None
    | (_, inl e) => Some e
    end.
Proof.
  intros Hrd. unfold thrown, tryBlock, mbind, io_bind, readdir, log.
  simpl. rewrite Hrd. by destruct (forEachItem _ _ _) as [s [e|[]]].
Qed.

Lemma thrown_listing_fails dir w e :
  fs_readdir dir w = inl e → thrown dir (start w) = Some e.
Proof.
  intros Hrd. unfold thrown, tryBlock, mbind, io_bind, readdir.
  simpl. by rewrite Hrd.
Qed.

Lemma catchBlock_stderr e s :
  stderr (catchBlock e s) =
    stderr s ++ error_line e ::
      (if bool_decide (code e = "ENOENT") then [hint_line] else []).
Proof.
  unfold catchBlock. destruct (bool_decide _); simpl; [|done].
  by rewrite <- app_assoc.
Qed.

Lemma catchBlock_rest e s :
  world (catchBlock e s) = world s ∧ calls (catchBlock e s) = calls s ∧
  stdout (catchBlock e s) = stdout s.
Proof. unfold catchBlock. by destruct (bool_decide _). Qed.

End OrganizerFacts.

(** ** The in-memory file system *)

Section MemFsFacts.

Import MemFs.

Implicit Types (w : gmap path node) (dir p : path) (item name : string).

Lemma strip_spec dir p below : strip dir p = Some below ↔ p = dir ++ below.
Proof.
  revert p. induction dir as [|d dir IH]; intros p; simpl.
  - split; congruence.
  - destruct p as [|c p]; [split; congruence|].
    case_bool_decide as Hd.
    + subst c. rewrite IH. split; congruence.
    + split; [done | intros [= ? ?]; congruence].
Qed.

Lemma child_of_spec dir p name :
  child_of dir p = Some name ↔ p = PathOps.join dir name.
Proof.
  unfold child_of, PathOps.join. split.
  - destruct (strip dir p) as [[|n []]|] eqn:Hs; try done.
    intros [= ->]. by apply strip_spec.
  - intros ->. by rewrite (proj2 (strip_spec dir (dir ++ [name]) [name]) eq_refl).
Qed.

Lemma child_of_join dir name : child_of dir (PathOps.join dir name) = Some name.
Proof. by apply child_of_spec. Qed.

Lemma elem_of_children dir w name :
  name ∈ children dir w ↔ is_Some (w !! PathOps.join dir name).
Proof.
  unfold children. rewrite list_elem_of_omap. split.
  - intros (p & Hp & Hc). apply child_of_spec in Hc as ->.
    apply list_elem_of_fmap in Hp as ([p x] & -> & Hin).
    apply elem_of_map_to_list in Hin. by exists x.
  - intros [x Hx]. exists (PathOps.join dir name). split; [|apply child_of_join].
    apply list_elem_of_fmap. exists (PathOps.join dir name, x).
    split; [done | by apply elem_of_map_to_list].
Qed.

Lemma NoDup_omap_inj {A B} (f : A → option B) (l : list A) :
  (∀ x y z, f x = Some z → f y = Some z → x = y) → NoDup l → NoDup (omap f l).
Proof.
  intros Hinj. induction 1 as [|x l Hx Hl IH]; simpl; [constructor|].
  destruct (f x) as [z|] eqn:Hfx; [|done]. constructor; [|done].
  rewrite list_elem_of_omap. intros (y & Hy & Hfy).
  by rewrite (Hinj _ _ _ Hfx Hfy) in Hx.
Qed.

Lemma NoDup_children dir w : NoDup (children dir w).
Proof.
  apply NoDup_omap_inj; [|apply NoDup_fst_map_to_list].
  intros p q name Hp%child_of_spec Hq%child_of_spec. congruence.
Qed.

Lemma join_inj dir a b : PathOps.join dir a = PathOps.join dir b → a = b.
Proof. unfold PathOps.join. intros Heq%app_inv_head. congruence. Qed.

Lemma join_ne_destination dir a b : PathOps.join dir a ≠ destinationOf dir b.
Proof.
  unfold destinationOf, PathOps.join. intros Heq%(f_equal length).
  rewrite !length_app in Heq. simpl in Heq. lia.
Qed.

Lemma destination_inj dir a b : destinationOf dir a = destinationOf dir b → a = b.
Proof.
  unfold destinationOf, PathOps.join. rewrite <- !app_assoc.
  intros Heq%app_inv_head. simpl in Heq. congruence.
Qed.

Lemma parent_of_destination dir item :
  removelast (destinationOf dir item) = PathOps.join dir (categoryOf item).
Proof. unfold destinationOf, PathOps.join at 1. apply removelast_last. Qed.

Lemma mkdir_up_eq full reversed w :
  mkdir_up full reversed w =
    match w !! rev reversed with
    | Some Dir => (w, None)
    | Some (File _) =>
        (w, Some (error_at
                    (if bool_decide (rev reversed = full) then "EEXIST" else "ENOTDIR")
                    "mkdir" (quoted full)))
    | Some BrokenLink => (w, Some (error_at "ENOENT" "mkdir" (quoted full)))
    | None =>
        match reversed with
        | [] => (<[rev reversed := Dir]> w, None)
        | _ :: parent =>
            match mkdir_up full parent w with
            | (w', None) => (<[rev reversed := Dir]> w', None)
            | (w', Some e) => (w', Some e)
            end
        end
    end.
Proof. by destruct reversed. Qed.

(** [mkdir] with [recursive: true] on an existing directory: no error and
    no change. *)
Lemma mkdir_existing p w :
  w !! p = Some Dir → mkdir_recursive p w = (w, None).
Proof.
  intros Hp. unfold mkdir_recursive. by rewrite mkdir_up_eq, rev_involutive, Hp.
Qed.

(** ... on a missing entry of an existing directory: the directory is made. *)
Lemma mkdir_missing dir name w :
  w !! dir = Some Dir → w !! PathOps.join dir name = None →
  mkdir_recursive (PathOps.join dir name) w =
    (<[PathOps.join dir name := Dir]> w, None).
Proof.
  intros Hdir Hp. unfold mkdir_recursive.
  rewrite mkdir_up_eq, rev_involutive, Hp.
  unfold PathOps.join. rewrite rev_unit.
  by rewrite mkdir_up_eq, rev_involutive, Hdir.
Qed.

(** ... on a path taken by something that is not a directory: [EEXIST] for
    a file, [ENOENT] for a dangling link. *)
Lemma mkdir_blocked p w x :
  w !! p = Some x → x ≠ Dir →
  mkdir_recursive p w = (w, Some (error_at (blockedCode x) "mkdir" (quoted p))).
Proof.
  intros Hp Hx. unfold mkdir_recursive.
  rewrite mkdir_up_eq, rev_involutive, Hp.
  destruct x; [by rewrite bool_decide_true | done | done].
Qed.

Lemma rename_file oldPath newPath w content :
  w !! oldPath = Some (File content) →
  w !! removelast newPath = Some Dir →
  oldPath ≠ newPath →
  rename oldPath newPath w =
    match w !! newPath with
    | Some Dir =>
        (w, Some (error_at "EISDIR" "rename"
                    (quoted oldPath ++ " -> " ++ quoted newPath)%string))
    | _ => (<[newPath := File content]> (delete oldPath w), None)
    end.
Proof.
  intros Hold Hparent Hne. unfold rename.
  rewrite Hold, Hparent, bool_decide_false by done.
  by destruct (w !! newPath) as [[]|].
Qed.

End MemFsFacts.

(** ** One entry on the in-memory file system *)

Section OneEntry.

Import MemFs.

Implicit Types (w : gmap path node) (dir p : path) (item name : string).
Implicit Types (s : process (gmap path node)).

Lemma eligible_spec w dir item :
  eligible w dir item = true ↔
  (∃ content, w !! PathOps.join dir item = Some (File content)) ∧
  item ≠ "main.js" ∧ fileExtensionOf item ≠ "".
Proof.
  unfold eligible. destruct (w !! PathOps.join dir item) as [[c| |]|].
  2-4: split; [done | by intros [[? ?] _]].
  rewrite andb_true_iff, negb_true_iff, bool_decide_eq_false.
  rewrite <- truthy_false, not_false_iff_true. split.
  - intros [? ?]. eauto.
  - by intros [_ ?].
Qed.

Lemma category_not_eligible w dir item : eligible w dir (categoryOf item) = false.
Proof.
  apply not_true_iff_false. intros (_ & _ & Hext)%eligible_spec.
  by destruct (category_plain item).
Qed.

(** The fates in terms of the entry. *)
Lemma fate_moved w dir item content :
  fateOf w dir item = Moved content →
  w !! PathOps.join dir item = Some (File content) ∧
  eligible w dir item = true ∧
  (w !! PathOps.join dir (categoryOf item) = None ∨
   w !! PathOps.join dir (categoryOf item) = Some Dir) ∧
  w !! destinationOf dir item ≠ Some Dir.
Proof.
  unfold fateOf, eligible.
  destruct (w !! PathOps.join dir item) as [[c| |]|]; try done.
  destruct (bool_decide (item = "main.js")); [done|].
  destruct (JsString.truthy (fileExtensionOf item)); [|done]. simpl.
  destruct (w !! PathOps.join dir (categoryOf item)) as [[]|]; try done;
    destruct (w !! destinationOf dir item) as [[]|]; try done;
    intros [= ->]; repeat split; auto.
Qed.

Lemma fate_target_is_directory w dir item :
  fateOf w dir item = TargetIsDirectory →
  eligible w dir item = true ∧
  (w !! PathOps.join dir (categoryOf item) = None ∨
   w !! PathOps.join dir (categoryOf item) = Some Dir).
Proof.
  unfold fateOf, eligible.
  destruct (w !! PathOps.join dir item) as [[c| |]|]; try done.
  destruct (bool_decide (item = "main.js")); [done|].
  destruct (JsString.truthy (fileExtensionOf item)); [|done]. simpl.
  destruct (w !! PathOps.join dir (categoryOf item)) as [[]|]; try done;
    destruct (w !! destinationOf dir item) as [[]|]; try done; auto.
Qed.

Lemma fate_skipped w dir item :
  fateOf w dir item = Skipped →
  eligible w dir item = false ∧
  (w !! PathOps.join dir item = Some Dir ∨
   ∃ content, w !! PathOps.join dir item = Some (File content)).
Proof.
  unfold fateOf, eligible.
  destruct (w !! PathOps.join dir item) as [[c| |]|]; try done; [|by auto].
  destruct (bool_decide (item = "main.js")); simpl; [by eauto|].
  destruct (JsString.truthy (fileExtensionOf item)); simpl; [|by eauto].
  destruct (w !! PathOps.join dir (categoryOf item)) as [[]|]; try done;
    destruct (w !! destinationOf dir item) as [[]|]; done.
Qed.

Lemma fate_vanished w dir item :
  fateOf w dir item = Vanished →
  w !! PathOps.join dir item = None ∨ w !! PathOps.join dir item = Some BrokenLink.
Proof.
  unfold fateOf.
  destruct (w !! PathOps.join dir item) as [[c| |]|]; auto; [|done].
  destruct (_ || _); [done|].
  destruct (w !! PathOps.join dir (categoryOf item)) as [[]|]; try done;
    destruct (w !! destinationOf dir item) as [[]|]; done.
Qed.

Lemma fate_not_eligible w dir item :
  eligible w dir item = false →
  fateOf w dir item = Skipped ∨ fateOf w dir item = Vanished.
Proof.
  unfold fateOf, eligible.
  destruct (w !! PathOps.join dir item) as [[c| |]|]; auto.
  destruct (bool_decide (item = "main.js")); simpl; [by auto|].
  destruct (JsString.truthy (fileExtensionOf item)); simpl; [done | by auto].
Qed.

(** What the loop body does, fate by fate. *)
Lemma processItem_memfs dir item s :
  world s !! dir = Some Dir →
  let itemPath := PathOps.join dir item in
  let destinationPath := PathOps.join dir (categoryOf item) in
  let newFilePath := destinationOf dir item in
  processItem dir item s =
    match fateOf (world s) dir item with
    | Vanished =>
        (called (Stat itemPath) s,
         inl (error_at "ENOENT" "stat" (quoted itemPath)))
    | Skipped => (called (Stat itemPath) s, inr ())
    | FolderBlocked =>
        (called (Mkdir destinationPath) (called (Stat itemPath) s),
         inl (error_at (folderCode (world s) dir item) "mkdir"
                (quoted destinationPath)))
    | TargetIsDirectory =>
        (with_world (withFolder dir item (world s))
           (called (Rename itemPath newFilePath)
              (called (Mkdir destinationPath) (called (Stat itemPath) s))),
         inl (error_at "EISDIR" "rename"
                (quoted itemPath ++ " -> " ++ quoted newFilePath)%string))
    | Moved content =>
        (console_log (moved_line item (categoryOf item))
           (with_world (moveFile dir item content (world s))
              (called (Rename itemPath newFilePath)
                 (called (Mkdir destinationPath) (called (Stat itemPath) s)))),
         inr ())
    end.
Proof.
  intros Hdir. simpl. unfold fateOf.
  destruct (world s !! PathOps.join dir item) as [[content| |]|] eqn:Hitem.
  2: { rewrite (processItem_skipped dir item s {| isDirectory := true |}); [done| |done].
       simpl. unfold MemFs.stat. by rewrite Hitem. }
  2,3: by (erewrite processItem_stat_fails; [done|]; simpl;
           unfold MemFs.stat; rewrite Hitem).
  assert (Hst : fs_stat (PathOps.join dir item) (world s)
                = inr {| isDirectory := false |}).
  { simpl. unfold MemFs.stat. by rewrite Hitem. }
  destruct (bool_decide (item = "main.js")) eqn:Hself; simpl.
  { rewrite (processItem_skipped dir item s _ Hst); [done|]. simpl. by rewrite Hself. }
  destruct (JsString.truthy (fileExtensionOf item)) eqn:Hext; simpl.
  2: { apply truthy_false in Hext.
       by rewrite (processItem_no_extension dir item s _ Hst). }
  assert (fileExtensionOf item ≠ "") as Hext'.
  { intros Heq. by rewrite Heq in Hext. }
  rewrite (processItem_moving dir item s _ Hst) by (simpl; by rewrite ?Hself).
  simpl.
  assert (Hne : PathOps.join dir item ≠ destinationOf dir item)
    by apply join_ne_destination.
  assert (Hcat : PathOps.join dir item ≠ PathOps.join dir (categoryOf item)).
  { intros Heq%join_inj. destruct (category_plain item) as [Hplain _].
    by rewrite <- Heq in Hplain. }
  assert (Hdst : destinationOf dir item ≠ PathOps.join dir (categoryOf item)).
  { intros Heq. by apply (join_ne_destination dir (categoryOf item) item). }
  fold (destinationOf dir item).
  destruct (world s !! PathOps.join dir (categoryOf item)) as [[c| |]|] eqn:Hfolder.
  - erewrite mkdir_blocked by done. unfold folderCode. rewrite Hfolder.
    simpl. by destruct s.
  - rewrite mkdir_existing by done. simpl.
    erewrite rename_file; [| done | by rewrite parent_of_destination | done].
    unfold moveFile, withFolder. rewrite (insert_id _ _ _ Hfolder).
    by destruct (world s !! destinationOf dir item) as [[]|].
  - erewrite mkdir_blocked by done. unfold folderCode. rewrite Hfolder.
    simpl. by destruct s.
  - rewrite mkdir_missing by done. simpl.
    erewrite rename_file;
      [| by rewrite lookup_insert_ne
       | by rewrite parent_of_destination, lookup_insert_eq | done].
    rewrite lookup_insert_ne by done.
    by destruct (world s !! destinationOf dir item) as [[]|].
Qed.

(** The world after the loop body, whether it threw or not. *)
Lemma processItem_world dir item s s' r :
  world s !! dir = Some Dir →
  processItem dir item s = (s', r) →
  world s' = after dir item (world s).
Proof.
  intros Hdir. rewrite processItem_memfs by done. unfold after.
  destruct (fateOf (world s) dir item); by intros [= <- <-].
Qed.

(** What [after] changes and what it keeps. *)
Lemma after_frame w dir item p :
  (eligible w dir item = true →
   p ≠ PathOps.join dir item ∧ p ≠ destinationOf dir item ∧
   p ≠ PathOps.join dir (categoryOf item)) →
  after dir item w !! p = w !! p.
Proof.
  intros Hp. unfold after.
  destruct (fateOf w dir item) eqn:Hfate; try done.
  - apply fate_target_is_directory in Hfate as [Hel _].
    destruct (Hp Hel) as (_ & _ & ?). unfold withFolder.
    by rewrite lookup_insert_ne.
  - apply fate_moved in Hfate as (_ & Hel & _).
    destruct (Hp Hel) as (? & ? & ?). unfold moveFile, withFolder.
    by rewrite lookup_insert_ne, lookup_delete_ne, lookup_insert_ne.
Qed.

Lemma after_keeps_directories w dir item p :
  w !! p = Some Dir → after dir item w !! p = Some Dir.
Proof.
  intros Hp. unfold after.
  destruct (fateOf w dir item) eqn:Hfate; try done; unfold moveFile, withFolder.
  - destruct (decide (PathOps.join dir (categoryOf item) = p)) as [->|?];
      [apply lookup_insert_eq | by rewrite lookup_insert_ne].
  - apply fate_moved in Hfate as (Hitem & _ & _ & Hdst).
    rewrite lookup_insert_ne by congruence.
    rewrite lookup_delete_ne by congruence.
    destruct (decide (PathOps.join dir (categoryOf item) = p)) as [->|?];
      [apply lookup_insert_eq | by rewrite lookup_insert_ne].
Qed.

(** A top-level entry that is not eligible stays what it is. *)
Lemma after_keeps_others w dir item name x :
  w !! PathOps.join dir name = Some x → eligible w dir name = false →
  after dir item w !! PathOps.join dir name = Some x.
Proof.
  intros Hname Hnot.
  assert (Hfolder : ∀ w',
    (w !! PathOps.join dir (categoryOf item) = None ∨
     w !! PathOps.join dir (categoryOf item) = Some Dir) →
    w' = withFolder dir item w → w' !! PathOps.join dir name = Some x).
  { intros w' Hcat ->. unfold withFolder.
    destruct (decide (PathOps.join dir (categoryOf item) = PathOps.join dir name))
      as [Heq|?]; [|by rewrite lookup_insert_ne].
    rewrite Heq in *. rewrite lookup_insert_eq. destruct Hcat; congruence. }
  unfold after. destruct (fateOf w dir item) eqn:Hfate; try done.
  - apply fate_target_is_directory in Hfate as [_ Hcat]. by eapply Hfolder.
  - apply fate_moved in Hfate as (_ & Hel & Hcat & _). unfold moveFile.
    rewrite lookup_insert_ne by (symmetry; apply join_ne_destination).
    rewrite lookup_delete_ne by (intros Heq%join_inj; congruence).
    by eapply Hfolder.
Qed.

(** The loop body adds no file to the top level and changes none there. *)
Lemma after_top_level w dir item name x :
  after dir item w !! PathOps.join dir name = Some x →
  x = Dir ∨ w !! PathOps.join dir name = Some x.
Proof.
  unfold after. destruct (fateOf w dir item) eqn:Hfate; auto;
    unfold moveFile, withFolder.
  - destruct (decide (PathOps.join dir (categoryOf item) = PathOps.join dir name))
      as [->|?]; [rewrite lookup_insert_eq | rewrite lookup_insert_ne by done];
      intros; simplify_eq; auto.
  - rewrite lookup_insert_ne by (symmetry; apply join_ne_destination).
    destruct (decide (PathOps.join dir item = PathOps.join dir name)) as [->|?];
      [by rewrite lookup_delete_eq | rewrite lookup_delete_ne by done].
    destruct (decide (PathOps.join dir (categoryOf item) = PathOps.join dir name))
      as [->|?]; [rewrite lookup_insert_eq | rewrite lookup_insert_ne by done];
      intros; simplify_eq; auto.
Qed.

(** An entry other than the one processed is as eligible after as before. *)
Lemma after_eligible w dir item name :
  name ≠ item → eligible (after dir item w) dir name = eligible w dir name.
Proof.
  intros Hne.
  destruct (eligible w dir name) eqn:Hel.
  - apply eligible_spec in Hel as ([c Hc] & ? & ?). apply eligible_spec.
    split_and!; [|done..]. exists c. rewrite after_frame; [done|].
    intros _. split_and!.
    + intros Heq%join_inj. done.
    + apply join_ne_destination.
    + intros Heq%join_inj. destruct (category_plain item). congruence.
  - apply not_true_iff_false. intros ([c Hc] & ? & ?)%eligible_spec.
    apply after_top_level in Hc as [?|Hc]; [done|].
    apply not_true_iff_false in Hel. apply Hel, eligible_spec. eauto.
Qed.

(** A moved entry: its content is at the destination, its folder exists and
    its old path is free. *)
Lemma after_moved w dir item content :
  fateOf w dir item = Moved content →
  after dir item w !! destinationOf dir item = Some (File content) ∧
  after dir item w !! PathOps.join dir item = None ∧
  after dir item w !! PathOps.join dir (categoryOf item) = Some Dir.
Proof.
  intros Hfate. unfold after. rewrite Hfate. unfold moveFile, withFolder.
  assert (PathOps.join dir item ≠ PathOps.join dir (categoryOf item)) as Hcat.
  { intros Heq%join_inj. destruct (category_plain item) as [Hplain _].
    apply fate_moved in Hfate as (_ & (_ & _ & Hext)%eligible_spec & _).
    by rewrite <- Heq in Hplain. }
  split_and!.
  - apply lookup_insert_eq.
  - rewrite lookup_insert_ne by (symmetry; apply join_ne_destination).
    apply lookup_delete_eq.
  - rewrite lookup_insert_ne
      by (intros Heq; by apply (join_ne_destination dir (categoryOf item) item)).
    rewrite lookup_delete_ne by done. apply lookup_insert_eq.
Qed.

End OneEntry.

(** ** The loop on the in-memory file system *)

Section Loop.

Import MemFs.

Implicit Types (w : gmap path node) (dir p : path) (item name : string).
Implicit Types (s : process (gmap path node)).

Lemma after_keeps_target w dir item :
  w !! dir = Some Dir → after dir item w !! dir = Some Dir.
Proof. apply after_keeps_directories. Qed.

Lemma forEachItem_sweep dir items s s' r :
  world s !! dir = Some Dir →
  forEachItem dir items s = (s', r) →
  sweep dir items (world s) (world s') (succeeded r).
Proof.
  revert s. induction items as [|item rest IH]; intros s Hdir; simpl.
  - intros [= <- <-]. constructor.
  - unfold mbind, io_bind.
    destruct (processItem dir item s) as [s1 r1] eqn:Hitem.
    pose proof (processItem_world _ _ _ _ _ Hdir Hitem) as Hw.
    rewrite processItem_memfs in Hitem by done.
    destruct (fateOf (world s) dir item) eqn:Hfate; simplify_eq; simpl.
    1,3,4: by (intros [= <- <-]; rewrite Hw; simpl; apply sweep_abort; rewrite Hfate).
    + intros Hrest. apply sweep_next; [by rewrite Hfate|].
      rewrite <- Hw. by apply IH.
    + intros Hrest. apply sweep_next; [by rewrite Hfate|].
      rewrite <- Hw. apply IH; [|done].
      rewrite Hw. by apply after_keeps_target.
Qed.

Lemma after_eligible_mono w dir item name :
  eligible (after dir item w) dir name = true → eligible w dir name = true.
Proof.
  intros ([c Hc] & ? & ?)%eligible_spec. apply eligible_spec.
  apply after_top_level in Hc as [?|Hc]; [done|]. eauto.
Qed.

Lemma sweep_keeps_directories dir items w w' ok p :
  sweep dir items w w' ok → w !! p = Some Dir → w' !! p = Some Dir.
Proof.
  induction 1 as [| ? ? ? ? ? _ _ IH |]; intros Hp; [done| |].
  - by apply IH, after_keeps_directories.
  - by apply after_keeps_directories.
Qed.

(** The run touches three paths per eligible entry and no other. *)
Lemma sweep_frame dir items w w' ok p :
  sweep dir items w w' ok →
  (∀ item, item ∈ items → eligible w dir item = true →
     p ≠ PathOps.join dir item ∧ p ≠ destinationOf dir item ∧
     p ≠ PathOps.join dir (categoryOf item)) →
  w' !! p = w !! p.
Proof.
  induction 1 as [| item rest w w' ok _ _ IH | item rest w _]; intros Hp; [done| |].
  - rewrite IH.
    + apply after_frame. intros Hel. apply Hp; [by left | done].
    + intros j Hj Hel%after_eligible_mono. apply Hp; [by right | done].
  - apply after_frame. intros Hel. apply Hp; [by left | done].
Qed.

(** Directories, the script and files without extension stay where they are,
    in every run. *)
Lemma sweep_keeps_others dir items w w' ok name x :
  sweep dir items w w' ok →
  w !! PathOps.join dir name = Some x → eligible w dir name = false →
  w' !! PathOps.join dir name = Some x.
Proof.
  induction 1 as [| item rest w w' ok _ _ IH | item rest w _]; intros Hx Hel; [done| |].
  - apply IH; [by apply after_keeps_others|].
    apply not_true_iff_false. intros Hel'%after_eligible_mono. congruence.
  - by apply after_keeps_others.
Qed.

Lemma sweep_top_level dir items w w' ok name x :
  sweep dir items w w' ok →
  w' !! PathOps.join dir name = Some x →
  x = Dir ∨ w !! PathOps.join dir name = Some x.
Proof.
  induction 1 as [| item rest w w' ok _ _ IH | item rest w _]; intros Hx; [by right| |].
  - apply IH in Hx as [?|Hx]; [by left|]. by apply after_top_level in Hx.
  - by apply after_top_level in Hx.
Qed.

Lemma continues_eligible w dir item :
  continues (fateOf w dir item) = true → eligible w dir item = true →
  ∃ content, fateOf w dir item = Moved content.
Proof.
  destruct (fateOf w dir item) eqn:Hfate; try done; [|by eauto].
  apply fate_skipped in Hfate as [Hno _]. congruence.
Qed.

(** A run that goes through moves every eligible entry of its listing. *)
Lemma sweep_moves dir items w w' ok item :
  sweep dir items w w' ok → ok = true → NoDup items →
  item ∈ items → eligible w dir item = true →
  ∃ content,
    w !! PathOps.join dir item = Some (File content) ∧
    w' !! destinationOf dir item = Some (File content) ∧
    w' !! PathOps.join dir item = None ∧
    w' !! PathOps.join dir (categoryOf item) = Some Dir.
Proof.
  induction 1 as [| first rest w w' ok Hgo Hrest IH |]; intros Hok Hnd Hin Hel.
  - by apply elem_of_nil in Hin.
  - apply NoDup_cons in Hnd as [Hfirst Hnd].
    apply elem_of_cons in Hin as [->|Hin].
    + destruct (continues_eligible _ _ _ Hgo Hel) as [content Hfate].
      destruct (after_moved _ _ _ _ Hfate) as (Hdst & Hsrc & Hcat).
      pose proof (fate_moved _ _ _ _ Hfate) as (Hitem & _).
      pose proof (proj1 (eligible_spec _ _ _) Hel) as (_ & _ & Hext).
      exists content. split_and!; [done | | |].
      * rewrite (sweep_frame _ _ _ _ _ _ Hrest); [done|].
        intros j Hj _. split_and!.
        -- intros Heq. by apply (join_ne_destination dir j first).
        -- intros Heq%destination_inj. congruence.
        -- intros Heq. by apply (join_ne_destination dir (categoryOf j) first).
      * rewrite (sweep_frame _ _ _ _ _ _ Hrest); [done|].
        intros j Hj _. split_and!.
        -- intros Heq%join_inj. congruence.
        -- apply join_ne_destination.
        -- intros Heq%join_inj. destruct (category_plain j). congruence.
      * by eapply sweep_keeps_directories.
    + assert (item ≠ first) as Hne by congruence.
      destruct IH as (content & Hitem & ?); [done.. | by rewrite after_eligible |].
      exists content. split; [|done].
      apply after_top_level in Hitem as [?|?]; done.
  - done.
Qed.

(** After a run that goes through, nothing of its listing is left to move. *)
Lemma sweep_settles dir items w w' ok name :
  sweep dir items w w' ok → ok = true → name ∈ items →
  fateOf w' dir name = Skipped ∨ w' !! PathOps.join dir name = None.
Proof.
  induction 1 as [| first rest w w' ok Hgo Hrest IH |]; intros Hok Hin.
  - by apply elem_of_nil in Hin.
  - apply elem_of_cons in Hin as [->|Hin]; [|by apply IH].
    destruct (w' !! PathOps.join dir first) as [x|] eqn:Hx; [left | by right].
    destruct (fateOf w dir first) eqn:Hfate; try done.
    + apply fate_skipped in Hfate as [Hno Hkind].
      assert (after dir first w = w) as Hsame.
      { unfold after. destruct (fate_not_eligible _ _ _ Hno) as [->| ->]; done. }
      rewrite Hsame in Hrest.
      assert (eligible w' dir first = false) as Hno'.
      { apply not_true_iff_false. intros ([c Hc] & ? & ?)%eligible_spec.
        apply not_true_iff_false in Hno. apply Hno, eligible_spec.
        split_and!; [|done..]. exists c.
        by destruct (sweep_top_level _ _ _ _ _ _ _ Hrest Hc). }
      destruct (fate_not_eligible _ _ _ Hno') as [?|Hv]; [done|].
      apply fate_vanished in Hv.
      destruct Hkind as [Hk|[c Hk]];
        apply (sweep_keeps_others _ _ _ _ _ _ _ Hrest) in Hk; try done;
        destruct Hv; congruence.
    + apply after_moved in Hfate as (_ & Hgone & _).
      destruct (sweep_top_level _ _ _ _ _ _ _ Hrest Hx) as [->|?]; [|congruence].
      unfold fateOf. by rewrite Hx.
  - done.
Qed.

End Loop.

(** ** Whole runs on the in-memory file system *)

Section Runs.

Import MemFs.

Implicit Types (w : gmap path node) (dir p : path) (item name : string).
Implicit Types (s : process (gmap path node)).

Lemma flat_map_ext_elem {A B} (f g : A → list B) (l : list A) :
  (∀ x, x ∈ l → f x = g x) → flat_map f l = flat_map g l.
Proof.
  induction l as [|x l IH]; intros Hfg; simpl; [done|].
  rewrite (Hfg x) by left. rewrite IH; [done|]. intros y Hy. apply Hfg. by right.
Qed.

(** The calls and the lines of a loop that goes through. *)
Lemma forEachItem_trace dir items s s' :
  world s !! dir = Some Dir → NoDup items →
  forEachItem dir items s = (s', inr ()) →
  calls s' = calls s ++ flat_map (callsFor (world s) dir) items ∧
  stdout s' = stdout s ++ flat_map (linesFor (world s) dir) items ∧
  stderr s' = stderr s.
Proof.
  revert s. induction items as [|item rest IH]; intros s Hdir Hnd; simpl.
  - intros [= <-]. by rewrite !app_nil_r.
  - apply NoDup_cons in Hnd as [Hfirst Hnd].
    unfold mbind, io_bind.
    destruct (processItem dir item s) as [s1 r1] eqn:Hitem.
    pose proof (processItem_world _ _ _ _ _ Hdir Hitem) as Hw.
    rewrite processItem_memfs in Hitem by done.
    destruct r1 as [e|[]]; [done|]. intros Hrest.
    assert (world s1 !! dir = Some Dir) as Hdir1.
    { rewrite Hw. by apply after_keeps_target. }
    assert (∀ name, name ∈ rest →
      eligible (world s1) dir name = eligible (world s) dir name) as Hsame.
    { intros name Hname. rewrite Hw. apply after_eligible. congruence. }
    destruct (IH _ Hdir1 Hnd Hrest) as (Hc & Ho & He).
    rewrite (flat_map_ext_elem (callsFor (world s1) dir) (callsFor (world s) dir))
      in Hc by (intros name Hname; unfold callsFor; by rewrite Hsame).
    rewrite (flat_map_ext_elem (linesFor (world s1) dir) (linesFor (world s) dir))
      in Ho by (intros name Hname; unfold linesFor; by rewrite Hsame).
    rewrite Hc, Ho, He.
    assert (calls s1 = calls s ++ callsFor (world s) dir item ∧
            stdout s1 = stdout s ++ linesFor (world s) dir item ∧
            stderr s1 = stderr s) as (-> & -> & ->).
    { unfold callsFor, linesFor.
      destruct (fateOf (world s) dir item) eqn:Hfate; simplify_eq; simpl.
      - apply fate_skipped in Hfate as [-> _]. by rewrite app_nil_r.
      - apply fate_moved in Hfate as (_ & -> & _). by rewrite <- !app_assoc. }
    by rewrite <- !app_assoc.
Qed.

(** A loop over entries that are all skipped makes one [stat] per entry and
    leaves everything as it is. *)
Lemma forEachItem_all_skipped dir items s :
  world s !! dir = Some Dir →
  (∀ name, name ∈ items → fateOf (world s) dir name = Skipped) →
  ∃ s', forEachItem dir items s = (s', inr ()) ∧
        world s' = world s ∧
        calls s' = calls s ++ map (λ name, Stat (PathOps.join dir name)) items ∧
        stdout s' = stdout s ∧ stderr s' = stderr s.
Proof.
  revert s. induction items as [|item rest IH]; intros s Hdir Hall; simpl.
  - exists s. by rewrite app_nil_r.
  - unfold mbind, io_bind. rewrite processItem_memfs by done.
    rewrite Hall by left.
    destruct (IH (called (Stat (PathOps.join dir item)) s)) as (s' & -> & Hw & Hc & Ho & He).
    + done.
    + intros name Hname. apply Hall. by right.
    + exists s'. simpl in *. rewrite Hc, <- app_assoc. done.
Qed.

Lemma readdir_ok dir w :
  w !! dir = Some Dir → fs_readdir dir w = inr (children dir w).
Proof. intros Hdir. simpl. unfold readdir. by rewrite Hdir. Qed.

Lemma readdir_missing dir w :
  w !! dir = None →
  fs_readdir dir w =
    inl (error_at (if through_file w [] dir then "ENOTDIR" else "ENOENT")
           "scandir" (quoted dir)).
Proof. intros Hdir. simpl. unfold readdir. by rewrite Hdir. Qed.

Lemma readdir_inv dir w items :
  fs_readdir dir w = inr items → w !! dir = Some Dir ∧ items = children dir w.
Proof.
  simpl. unfold readdir. destruct (w !! dir) as [[]|]; try done.
  by intros [= <-].
Qed.

(** A run whose [try] block does not throw: the listing was read and the
    loop went through it. *)
Lemma run_succeeds dir w :
  thrown dir (start w) = None →
  w !! dir = Some Dir ∧
  ∃ s', forEachItem dir (children dir w) (listed dir w) = (s', inr ()) ∧
        organizeDirectory dir (start w) = console_log success_line s' ∧
        sweep dir (children dir w) w (world s') true.
Proof.
  intros Hthrown.
  destruct (fs_readdir dir w) as [e|items] eqn:Hrd.
  { by rewrite (thrown_listing_fails _ _ _ Hrd) in Hthrown. }
  pose proof (readdir_inv _ _ _ Hrd) as [Hdir ->]. split; [done|].
  rewrite (thrown_loop _ _ _ Hrd) in Hthrown.
  rewrite (organizeDirectory_loop _ _ _ Hrd).
  fold (listed dir w) in *.
  destruct (forEachItem dir (children dir w) (listed dir w)) as [s' [e|[]]] eqn:Hloop;
    [done|].
  exists s'. split_and!; [done..|].
  by apply (forEachItem_sweep dir _ (listed dir w)) in Hloop.
Qed.

Lemma filter_stats (f : syscall → bool) dir (names : list string) :
  (∀ p, f (Stat p) = false) →
  filter f (map (λ name, Stat (PathOps.join dir name)) names) = [].
Proof.
  intros Hf. induction names as [|name names IH]; simpl; [done|].
  rewrite filter_cons, Hf. simpl. by rewrite IH.
Qed.

End Runs.

Section RunFacts.

Import MemFs.

Implicit Types (w : gmap path node) (dir p : path) (item name : string).
Implicit Types (s : process (gmap path node)).

Lemma elem_of_snoc {A} (x y : A) (l : list A) : x ∈ l ++ [y] ↔ x ∈ l ∨ x = y.
Proof. by rewrite elem_of_app, list_elem_of_singleton. Qed.

(** Every [rename] of a loop, whether it goes through or not, takes an
    eligible entry of the listing to its destination. *)
Lemma forEachItem_renames dir items s s' r oldPath newPath :
  world s !! dir = Some Dir →
  forEachItem dir items s = (s', r) →
  Rename oldPath newPath ∈ calls s' →
  Rename oldPath newPath ∈ calls s ∨
  ∃ item, item ∈ items ∧ eligible (world s) dir item = true ∧
          oldPath = PathOps.join dir item ∧ newPath = destinationOf dir item.
Proof.
  revert s. induction items as [|item rest IH]; intros s Hdir; simpl.
  - intros [= <- <-]. by left.
  - unfold mbind, io_bind.
    destruct (processItem dir item s) as [s1 r1] eqn:Hitem.
    pose proof (processItem_world _ _ _ _ _ Hdir Hitem) as Hw.
    assert (world s1 !! dir = Some Dir) as Hdir1.
    { rewrite Hw. by apply after_keeps_target. }
    assert (Rename oldPath newPath ∈ calls s1 →
            Rename oldPath newPath ∈ calls s ∨
            eligible (world s) dir item = true ∧
            oldPath = PathOps.join dir item ∧ newPath = destinationOf dir item)
      as Hstep.
    { rewrite processItem_memfs in Hitem by done.
      destruct (fateOf (world s) dir item) eqn:Hfate; simplify_eq; simpl;
        rewrite ?elem_of_snoc; intros Hin; split_calls; auto.
      - apply fate_target_is_directory in Hfate as [Hel _]. auto.
      - apply fate_moved in Hfate as (_ & Hel & _). auto. }
    intros Hrest Hin.
    assert (Rename oldPath newPath ∈ calls s1 ∨
            ∃ item', item' ∈ rest ∧ eligible (world s1) dir item' = true ∧
                     oldPath = PathOps.join dir item' ∧
                     newPath = destinationOf dir item') as [Hin1|Hlater].
    { destruct r1 as [e|[]]; [simplify_eq; by left | by eapply IH]. }
    + destruct (Hstep Hin1) as [?|(? & ? & ?)]; [by left|].
      right. exists item. split_and!; [by left | done..].
    + destruct Hlater as (item' & Hin' & Hel & ? & ?).
      right. exists item'. split_and!; [by right | | done..].
      rewrite Hw in Hel. by apply after_eligible_mono in Hel.
Qed.

(** The renames of a whole run. *)
Lemma organizeDirectory_renames dir w oldPath newPath :
  Rename oldPath newPath ∈ calls (organizeDirectory dir (start w)) →
  ∃ item, eligible w dir item = true ∧
          oldPath = PathOps.join dir item ∧ newPath = destinationOf dir item.
Proof.
  destruct (fs_readdir dir w) as [e|items] eqn:Hrd.
  { rewrite (organizeDirectory_listing_fails _ _ _ Hrd). fold (listed dir w).
    destruct (catchBlock_rest e (listed dir w)) as (_ & -> & _). simpl.
    intros Hin. apply list_elem_of_singleton in Hin. done. }
  pose proof (readdir_inv _ _ _ Hrd) as [Hdir ->].
  rewrite (organizeDirectory_loop _ _ _ Hrd). fold (listed dir w).
  destruct (forEachItem dir (children dir w) (listed dir w)) as [s' r] eqn:Hloop.
  intros Hin.
  assert (Rename oldPath newPath ∈ calls s') as Hin'.
  { destruct r as [e|[]]; [|done].
    by destruct (catchBlock_rest e s') as (_ & <- & _). }
  destruct (forEachItem_renames dir _ (listed dir w) _ _ _ _ Hdir Hloop Hin')
    as [Hstart|(item & _ & ? & ? & ?)]; [|by eauto].
  simpl in Hstart. apply list_elem_of_singleton in Hstart. done.
Qed.

(** The world a run ends in, read off its loop. *)
Lemma organizeDirectory_world dir w :
  world (organizeDirectory dir (start w)) = w ∨
  ∃ ok, w !! dir = Some Dir ∧
        sweep dir (children dir w) w (world (organizeDirectory dir (start w))) ok.
Proof.
  destruct (fs_readdir dir w) as [e|items] eqn:Hrd.
  { left. rewrite (organizeDirectory_listing_fails _ _ _ Hrd). fold (listed dir w).
    by destruct (catchBlock_rest e (listed dir w)) as (-> & _). }
  pose proof (readdir_inv _ _ _ Hrd) as [Hdir ->].
  right. rewrite (organizeDirectory_loop _ _ _ Hrd). fold (listed dir w).
  destruct (forEachItem dir (children dir w) (listed dir w)) as [s' r] eqn:Hloop.
  apply (forEachItem_sweep dir _ (listed dir w)) in Hloop; [|done].
  exists (succeeded r). split; [done|].
  destruct r as [e|[]]; [|done].
  by destruct (catchBlock_rest e s') as (-> & _).
Qed.

(** An entry of the target directory that is not eligible is, after any run,
    what and where it was, and no [rename] was issued for it. *)
Lemma run_keeps_others dir w name x :
  w !! PathOps.join dir name = Some x → eligible w dir name = false →
  let r := organizeDirectory dir (start w) in
  world r !! PathOps.join dir name = Some x ∧
  ∀ newPath, Rename (PathOps.join dir name) newPath ∉ calls r.
Proof.
  intros Hx Hno. simpl. split.
  - destruct (organizeDirectory_world dir w) as [->|(ok & _ & Hsweep)]; [done|].
    by eapply sweep_keeps_others.
  - intros newPath (item & Hel & Heq%join_inj & _)%organizeDirectory_renames.
    congruence.
Qed.

Lemma sweep_untouched dir items w w' ok p :
  sweep dir items w w' ok → ¬ touched w dir items p → w' !! p = w !! p.
Proof.
  intros Hsweep Hno. eapply sweep_frame; [done|].
  intros item Hin Hel.
  split_and!; intros ->; apply Hno, Exists_exists; exists item; auto.
Qed.

End RunFacts.

(** * The statements of the specification *)

(** ** The classifier *)

(** C1. [getDestinationFolder] is total and returns a category for every
    extension string: the folder of the first entry of [FOLDER_MAPPING], in
    the order of the table, whose extension list contains the string, and
    ["outros"] when no entry of the table contains it. *)
Theorem getDestinationFolder_first_match (e : string) :
  getDestinationFolder e ∈ folders ∧
  ((∃ pre folder extensions post,
       FOLDER_MAPPING = pre ++ (folder, extensions) :: post ∧
       e ∈ extensions ∧
       Forall (λ entry, e ∉ entry.2) pre ∧
       getDestinationFolder e = folder) ∨
   (Forall (λ entry, e ∉ entry.2) FOLDER_MAPPING ∧
    getDestinationFolder e = "outros")).
Proof.
  split; [apply getDestinationFolder_range | apply searchFolders_first_match].
Qed.

Example classify_jpg : getDestinationFolder ".jpg" = "imagens".
Proof. reflexivity. Qed.

Example classify_json : getDestinationFolder ".json" = "codigo".
Proof. reflexivity. Qed.

Example classify_unknown : getDestinationFolder ".xyz" = "outros".
Proof. reflexivity. Qed.

Example classify_empty : getDestinationFolder "" = "outros".
Proof. reflexivity. Qed.

(** ** The exit code *)

(** The entry point exits with code 1 for a missing or empty argument and
    with code 0 in every other case, whatever [organizeDirectory] met. *)
Lemma main_exit_code {W} `{FileSystem W} (argv : list string) (cwd : path) (w : W) :
  exitCode (main argv cwd w) =
    match argv !! 2%nat with
    | None | Some EmptyString => 1
    | Some _ => 0
    end.
Proof. unfold main. by destruct (argv !! 2%nat) as [[]|]. Qed.

(** C2. The specification has the process exit with code 1 when an error
    occurs during organization.  Run on a path that does not exist, the
    listing throws [ENOENT], the [catch] clause prints the error and the
    hint, and the process ends with exit code 0. *)
Theorem organization_error_exits_zero :
  let run := main ["node"; "main.js"; "/nao/existe"] ["home"; "u"] scenario in
  thrown ["nao"; "existe"] (start scenario) =
    Some (MemFs.error_at "ENOENT" "scandir" "'/nao/existe'") ∧
  stderr (final run) =
    [ error_line (MemFs.error_at "ENOENT" "scandir" "'/nao/existe'"); hint_line ] ∧
  exitCode run = 0.
Proof. intros run. split_and!; vm_compute; reflexivity. Qed.

(** ** Errors *)

(** C3, as the specification has it, fails: when the [stat] of an entry
    throws [ENOENT] (here a dangling link, met after one file was moved),
    the run prints two lines on standard error, the error and the hint. *)
Lemma dangling_link_two_messages :
  let r := organizeDirectory bagunca (start dangling) in
  thrown bagunca (start dangling) =
    Some (MemFs.error_at "ENOENT" "stat" "'/home/u/bagunca/atalho.pdf'") ∧
  last (calls r) = Some (Stat (PathOps.join bagunca "atalho.pdf")) ∧
  stderr r =
    [ error_line (MemFs.error_at "ENOENT" "stat" "'/home/u/bagunca/atalho.pdf'");
      hint_line ] ∧
  length (stderr r) ≠ 1%nat.
Proof. intros r. split_and!; vm_compute; (reflexivity || discriminate). Qed.

(** C3, amended.  When the loop body throws for an entry of the listing
    (in its [stat], its [mkdir] or its [rename]), the run ends there, on any
    file system: its result is the state at the throw passed to the [catch]
    clause, so the entries after the failing one are neither looked at nor
    moved, the call that threw is the last one made, no line is printed for
    the failing entry and no success line, and standard error receives the
    error line, followed by the hint line exactly when the error code is
    [ENOENT].  On the in-memory file system, every entry moved before the
    failure is at its destination, with its content, in the final state. *)
Theorem abort_at_first_failure :
  (∀ (W : Type) (FS : FileSystem W) (dir : path) (w : W)
     (pre post : list string) (item : string) (s1 sF : process W) (e : SystemError),
     fs_readdir dir w = inr (pre ++ item :: post) →
     forEachItem dir pre
       (called (Readdir dir) (console_log (start_line dir) (start w))) = (s1, inr ()) →
     processItem dir item s1 = (sF, inl e) →
     let r := organizeDirectory dir (start w) in
     r = catchBlock e sF ∧
     world r = world sF ∧
     (∃ suffix, calls r = calls s1 ++ suffix ∧
        (suffix = [Stat (PathOps.join dir item)] ∨
         suffix = [Stat (PathOps.join dir item);
                   Mkdir (PathOps.join dir (categoryOf item))] ∨
         suffix = [Stat (PathOps.join dir item);
                   Mkdir (PathOps.join dir (categoryOf item));
                   Rename (PathOps.join dir item)
                     (PathOps.join (PathOps.join dir (categoryOf item)) item)])) ∧
     stdout r = stdout s1 ∧
     stderr r =
       error_line e :: (if bool_decide (code e = "ENOENT") then [hint_line] else [])) ∧
  (∀ (dir : path) (w : gmap path node)
     (pre post : list string) (item : string)
     (s1 sF : process (gmap path node)) (e : SystemError),
     fs_readdir dir w = inr (pre ++ item :: post) →
     forEachItem dir pre
       (called (Readdir dir) (console_log (start_line dir) (start w))) = (s1, inr ()) →
     processItem dir item s1 = (sF, inl e) →
     let r := organizeDirectory dir (start w) in
     ∀ name, name ∈ pre → eligible w dir name = true →
       ∃ content,
         w !! PathOps.join dir name = Some (File content) ∧
         world r !! PathOps.join (PathOps.join dir (categoryOf name)) name
           = Some (File content) ∧
         world r !! PathOps.join dir name = None).
Proof.
  split.
  - intros W FS dir w pre post item s1 sF e Hrd Hpre Hitem r.
    assert (r = catchBlock e sF) as Hr.
    { unfold r. rewrite (organizeDirectory_loop _ _ _ Hrd).
      by rewrite (forEachItem_aborts _ _ _ _ _ _ _ _ Hpre Hitem). }
    pose proof (catchBlock_rest e sF) as (Hw & Hc & Ho).
    pose proof (catchBlock_stderr e sF) as He.
    destruct (processItem_failure_calls _ _ _ _ _ Hitem) as (Ho1 & He1 & suffix & Hc1 & Hs).
    assert (stderr s1 = []) as Hnil by (by rewrite (forEachItem_stderr _ _ _ _ _ Hpre)).
    rewrite Hr. split_and!; [done | done | | congruence |].
    + exists suffix. split; [congruence | done].
    + by rewrite He, He1, Hnil.
  - intros dir w pre post item s1 sF e Hrd Hpre Hitem r name Hname Hel.
    pose proof (readdir_inv _ _ _ Hrd) as [Hdir Hlist].
    assert (NoDup (pre ++ item :: post)) as Hnd.
    { rewrite Hlist. apply NoDup_children. }
    apply NoDup_app in Hnd as (Hndpre & Hdisj & _).
    assert (world r = after dir item (world s1)) as Hr.
    { unfold r. rewrite (organizeDirectory_loop _ _ _ Hrd).
      rewrite (forEachItem_aborts _ _ _ _ _ _ _ _ Hpre Hitem).
      destruct (catchBlock_rest e sF) as (-> & _).
      apply (forEachItem_sweep dir _ (listed dir w)) in Hpre; [|done].
      eapply processItem_world; [|done].
      by eapply sweep_keeps_directories. }
    apply (forEachItem_sweep dir _ (listed dir w)) in Hpre; [|done].
    destruct (sweep_moves _ _ _ _ _ _ Hpre eq_refl Hndpre Hname Hel)
      as (content & Hsrc & Hdst & Hgone & _).
    assert (name ≠ item) as Hne.
    { intros ->. apply (Hdisj item Hname). by left. }
    pose proof (proj1 (eligible_spec _ _ _) Hel) as (_ & _ & Hext).
    exists content. rewrite Hr. fold (destinationOf dir name).
    split_and!; [done | |].
    + rewrite after_frame; [done|]. intros _. split_and!.
      * intros Heq. by apply (join_ne_destination dir item name).
      * intros Heq%destination_inj. done.
      * intros Heq. by apply (join_ne_destination dir (categoryOf item) name).
    + rewrite after_frame; [done|]. intros _. split_and!.
      * intros Heq%join_inj. done.
      * apply join_ne_destination.
      * intros Heq%join_inj. destruct (category_plain item). congruence.
Qed.

Lemma abort_at_first_failure_witness :
  let s0 := called (Readdir bagunca)
              (console_log (start_line bagunca) (start dangling)) in
  let s1 := (forEachItem bagunca ["notes.txt"; "main.js"] s0).1 in
  let sF := (processItem bagunca "atalho.pdf" s1).1 in
  let e := MemFs.error_at "ENOENT" "stat" "'/home/u/bagunca/atalho.pdf'" in
  let r := organizeDirectory bagunca (start dangling) in
  forEachItem bagunca ["notes.txt"; "main.js"] s0 = (s1, inr ()) ∧
  processItem bagunca "atalho.pdf" s1 = (sF, inl e) ∧
  r = catchBlock e sF ∧
  stdout r = stdout s1 ∧
  stderr r = [error_line e; hint_line] ∧
  ∃ content,
    dangling !! PathOps.join bagunca "notes.txt" = Some (File content) ∧
    world r !! PathOps.join (PathOps.join bagunca (categoryOf "notes.txt")) "notes.txt"
      = Some (File content) ∧
    world r !! PathOps.join bagunca "notes.txt" = None.
Proof.
  intros s0 s1 sF e r.
  assert (fs_readdir bagunca dangling
          = inr (["notes.txt"; "main.js"] ++ "atalho.pdf" :: ["photo.JPG"; "song.mp3"]))
    as Hrd by (vm_compute; reflexivity).
  assert (forEachItem bagunca ["notes.txt"; "main.js"] s0 = (s1, inr ())) as Hpre.
  { unfold s1. destruct (forEachItem _ _ s0) as [s r1] eqn:Hloop.
    f_equal. change r1 with (s, r1).2. rewrite <- Hloop.
    vm_compute; reflexivity. }
  assert (processItem bagunca "atalho.pdf" s1 = (sF, inl e)) as Hitem.
  { unfold sF. destruct (processItem _ _ s1) as [s r1] eqn:Hstep.
    f_equal. change r1 with (s, r1).2. rewrite <- Hstep.
    vm_compute; reflexivity. }
  destruct abort_at_first_failure as [Hany Hmem].
  destruct (Hany _ _ _ _ _ _ _ _ _ _ Hrd Hpre Hitem) as (Hr & _ & _ & Hout & Herr).
  split_and!; [exact Hpre | exact Hitem | exact Hr | exact Hout | exact Herr |].
  apply (Hmem _ _ _ _ _ _ _ _ Hrd Hpre Hitem "notes.txt").
  - by left.
  - vm_compute; reflexivity.
Defined.

(** C4. When the listing of the target directory throws [ENOENT], as it
    does when the directory is missing, standard error receives the error
    line and then the hint line, the only call made is that [readdir] (no
    [mkdir], no [rename]), and the file system is as it was. *)
Theorem missing_directory_hint {W : Type} `{FileSystem W}
    (dir : path) (w : W) (e : SystemError) :
  fs_readdir dir w = inl e → code e = "ENOENT" →
  let r := organizeDirectory dir (start w) in
  stderr r = [error_line e; hint_line] ∧
  stdout r = [start_line dir] ∧
  calls r = [Readdir dir] ∧ renames r = [] ∧ mkdirs r = [] ∧
  world r = w.
Proof.
  intros Hrd Hcode r. unfold r.
  rewrite (organizeDirectory_listing_fails _ _ _ Hrd).
  unfold catchBlock, renames, mkdirs. by rewrite bool_decide_true.
Qed.

Lemma missing_directory_hint_witness :
  let e := MemFs.error_at "ENOENT" "scandir" "'/nao/existe'" in
  let r := organizeDirectory ["nao"; "existe"] (start scenario) in
  scenario !! ["nao"; "existe"] = None ∧
  fs_readdir ["nao"; "existe"] scenario = inl e ∧
  stderr r = [error_line e; hint_line] ∧
  calls r = [Readdir ["nao"; "existe"]] ∧
  world r = scenario.
Proof.
  assert (fs_readdir ["nao"; "existe"] scenario
          = inl (MemFs.error_at "ENOENT" "scandir" "'/nao/existe'")) as Hrd
    by (vm_compute; reflexivity).
  destruct (missing_directory_hint _ _ _ Hrd eq_refl) as (He & _ & Hc & _ & _ & Hw).
  split_and!; [vm_compute; reflexivity | exact Hrd | exact He | exact Hc | exact Hw].
Defined.

(** ** Entries that are skipped *)

(** C5. An entry that [stat] reports as a directory, or whose name is
    ["main.js"], is skipped whatever its name looks like: on any file
    system the loop body makes the [stat] call and nothing else (no [mkdir],
    no [rename], no line printed, the file system unchanged); and on the
    in-memory file system the entry is, after the whole run, what and where
    it was, and no [rename] was issued for it. *)
Theorem directories_and_script_skipped :
  (∀ (W : Type) (FS : FileSystem W) (dir : path) (item : string)
     (s : process W) (st : Stats),
     fs_stat (PathOps.join dir item) (world s) = inr st →
     isDirectory st = true ∨ item = "main.js" →
     processItem dir item s = (called (Stat (PathOps.join dir item)) s, inr ())) ∧
  (∀ (dir : path) (w : gmap path node) (item : string) (x : node),
     w !! PathOps.join dir item = Some x →
     x = Dir ∨ item = "main.js" →
     let r := organizeDirectory dir (start w) in
     world r !! PathOps.join dir item = Some x ∧
     ∀ newPath, Rename (PathOps.join dir item) newPath ∉ calls r).
Proof.
  split.
  - intros W FS dir item s st Hst Hskip. apply (processItem_skipped _ _ _ _ Hst).
    destruct Hskip as [-> | ->]; [done | apply orb_true_r].
  - intros dir w item x Hx Hskip. apply run_keeps_others; [done|].
    unfold eligible. rewrite Hx. destruct Hskip as [-> | ->]; [done|].
    by destruct x.
Qed.

Lemma directories_and_script_skipped_witness :
  let r := organizeDirectory bagunca (start dangling) in
  processItem bagunca "backup" (start scenario)
    = (called (Stat (PathOps.join bagunca "backup")) (start scenario), inr ()) ∧
  world r !! PathOps.join bagunca "main.js" = Some (File "script") ∧
  ∀ newPath, Rename (PathOps.join bagunca "main.js") newPath ∉ calls r.
Proof.
  destruct directories_and_script_skipped as [Hstep Hrun].
  split.
  - apply (Hstep _ _ bagunca "backup" (start scenario) {| isDirectory := true |}).
    + vm_compute; reflexivity.
    + left; reflexivity.
  - apply (Hrun bagunca dangling "main.js" (File "script")).
    + vm_compute; reflexivity.
    + right; reflexivity.
Defined.

(** C6. A name without a dot, and a name whose only dot is its first
    character, have the empty extension; and an entry whose extension is
    empty is skipped: on any file system the loop body makes the [stat] call
    and nothing else, and on the in-memory file system a file with such a
    name is, after the whole run, where it was with the content it had, and
    no [rename] was issued for it. *)
Theorem files_without_extension_skipped :
  (∀ name : string,
     Path.CHAR_DOT ∉ list_ascii_of_string name → Path.extname name = "") ∧
  (∀ rest : string,
     Path.CHAR_DOT ∉ list_ascii_of_string rest →
     Path.extname (String Path.CHAR_DOT rest) = "") ∧
  (∀ (W : Type) (FS : FileSystem W) (dir : path) (item : string)
     (s : process W) (st : Stats),
     fs_stat (PathOps.join dir item) (world s) = inr st →
     Path.extname item = "" →
     processItem dir item s = (called (Stat (PathOps.join dir item)) s, inr ())) ∧
  (∀ (dir : path) (w : gmap path node) (item content : string),
     w !! PathOps.join dir item = Some (File content) →
     Path.extname item = "" →
     let r := organizeDirectory dir (start w) in
     world r !! PathOps.join dir item = Some (File content) ∧
     ∀ newPath, Rename (PathOps.join dir item) newPath ∉ calls r).
Proof.
  split_and!.
  - apply extname_no_dot.
  - apply extname_dotfile.
  - intros W FS dir item s st Hst Hext.
    apply (processItem_no_extension _ _ _ _ Hst).
    unfold fileExtensionOf. by rewrite Hext.
  - intros dir w item content Hx Hext. apply run_keeps_others; [done|].
    unfold eligible, fileExtensionOf. rewrite Hx, Hext. apply andb_false_r.
Qed.

Lemma files_without_extension_skipped_witness :
  let r := organizeDirectory bagunca (start scenario) in
  Path.extname "README" = "" ∧ Path.extname ".gitignore" = "" ∧
  processItem bagunca "run" (start scenario)
    = (called (Stat (PathOps.join bagunca "run")) (start scenario), inr ()) ∧
  world r !! PathOps.join bagunca "run" = Some (File "#!/bin/sh") ∧
  ∀ newPath, Rename (PathOps.join bagunca "run") newPath ∉ calls r.
Proof.
  destruct files_without_extension_skipped as (Hplain & Hdot & Hstep & Hrun).
  split_and!.
  - apply Hplain. vm_compute. intros Hin.
    repeat (apply elem_of_cons in Hin as [Hin|Hin]; [discriminate Hin|]).
    by apply elem_of_nil in Hin.
  - apply (Hdot "gitignore"). vm_compute. intros Hin.
    repeat (apply elem_of_cons in Hin as [Hin|Hin]; [discriminate Hin|]).
    by apply elem_of_nil in Hin.
  - apply (Hstep _ _ bagunca "run" (start scenario) {| isDirectory := false |}).
    + vm_compute; reflexivity.
    + vm_compute; reflexivity.
  - apply (Hrun bagunca scenario "run" "#!/bin/sh");
      vm_compute; reflexivity.
  - apply (Hrun bagunca scenario "run" "#!/bin/sh");
      vm_compute; reflexivity.
Defined.

(** ** Classification and case *)

Section CaseFacts.

Context {W : Type} `{FileSystem W} (lower : string → string).

Implicit Types (s : process W) (dir : path) (item : string).

(** With the embedding's lower-casing, the loop body is [processItem]. *)
Lemma processItemWith_toLowerCase dir item :
  processItemWith JsString.toLowerCase dir item = processItem dir item.
Proof. reflexivity. Qed.


End CaseFacts.




(** ** Runs that go through *)

(** C8. A second run right after a run that went through moves nothing:
    it goes through as well, makes no [rename] and no [mkdir], leaves the
    file system as the first run left it, and prints only the opening and
    the closing line. *)
Theorem second_run_moves_nothing (dir : path) (w : gmap path node) :
  thrown dir (start w) = None →
  let first := organizeDirectory dir (start w) in
  let second := organizeDirectory dir (start (world first)) in
  thrown dir (start (world first)) = None ∧
  renames second = [] ∧ mkdirs second = [] ∧
  world second = world first ∧
  stdout second = [start_line dir; success_line].
Proof.
  intros Hok first second.
  destruct (run_succeeds _ _ Hok) as (Hdir & s' & _ & Hr & Hsweep).
  assert (world first = world s') as Hw by (unfold first; by rewrite Hr).
  assert (world first !! dir = Some Dir) as Hdir'.
  { rewrite Hw. by eapply sweep_keeps_directories. }
  assert (∀ name, name ∈ MemFs.children dir (world first) →
            fateOf (world first) dir name = Skipped) as Hall.
  { intros name [x Hx]%elem_of_children. rewrite Hw in *.
    destruct (sweep_top_level _ _ _ _ _ _ _ Hsweep Hx) as [->|Hbefore].
    - unfold fateOf. by rewrite Hx.
    - destruct (sweep_settles _ _ _ _ _ name Hsweep eq_refl) as [?|?];
        [|done|congruence].
      apply elem_of_children. by exists x. }
  pose proof (readdir_ok _ _ Hdir') as Hrd.
  destruct (forEachItem_all_skipped dir (MemFs.children dir (world first))
              (listed dir (world first)) Hdir' Hall) as (s2 & Hloop & Hw2 & Hc2 & Ho2 & _).
  assert (second = console_log success_line s2) as Hsecond.
  { unfold second. rewrite (organizeDirectory_loop _ _ _ Hrd).
    fold (listed dir (world first)). by rewrite Hloop. }
  split_and!.
  - rewrite (thrown_loop _ _ _ Hrd). fold (listed dir (world first)). by rewrite Hloop.
  - rewrite Hsecond. unfold renames. simpl. rewrite Hc2. simpl.
    rewrite filter_cons. simpl. by apply filter_stats.
  - rewrite Hsecond. unfold mkdirs. simpl. rewrite Hc2. simpl.
    rewrite filter_cons. simpl. by apply filter_stats.
  - by rewrite Hsecond.
  - rewrite Hsecond. simpl. by rewrite Ho2.
Qed.

Lemma second_run_moves_nothing_witness :
  let first := organizeDirectory bagunca (start scenario) in
  let second := organizeDirectory bagunca (start (world first)) in
  length (renames first) = 3%nat ∧
  renames second = [] ∧ world second = world first.
Proof.
  intros first second.
  destruct (second_run_moves_nothing bagunca scenario) as (_ & Hren & _ & Hw & _).
  - vm_compute; reflexivity.
  - split_and!; [vm_compute; reflexivity | exact Hren | exact Hw].
Defined.

Section Layout.

Implicit Types (w : gmap path node) (dir p : path) (item name : string).

Lemma eligible_listed w dir item :
  eligible w dir item = true → item ∈ MemFs.children dir w.
Proof.
  intros ([c Hc] & _)%eligible_spec. apply elem_of_children. by exists (File c).
Qed.


(** The state a run that goes through ends in. *)
Lemma run_result dir w :
  thrown dir (start w) = None →
  let r := organizeDirectory dir (start w) in
  w !! dir = Some Dir ∧
  sweep dir (MemFs.children dir w) w (world r) true ∧
  calls r = Readdir dir :: flat_map (callsFor w dir) (MemFs.children dir w) ∧
  stdout r = start_line dir ::
             flat_map (linesFor w dir) (MemFs.children dir w) ++ [success_line] ∧
  stderr r = [].
Proof.
  intros Hok r.
  destruct (run_succeeds _ _ Hok) as (Hdir & s' & Hloop & Hr & Hsweep).
  destruct (forEachItem_trace dir _ (listed dir w) _ Hdir (NoDup_children _ _) Hloop)
    as (Hc & Ho & He).
  unfold r. rewrite Hr. simpl. rewrite Hc, Ho, He. done.
Qed.

Lemma run_moves dir w item :
  thrown dir (start w) = None → eligible w dir item = true →
  let r := organizeDirectory dir (start w) in
  ∃ content,
    w !! PathOps.join dir item = Some (File content) ∧
    world r !! destinationOf dir item = Some (File content) ∧
    world r !! PathOps.join dir item = None ∧
    world r !! PathOps.join dir (categoryOf item) = Some Dir.
Proof.
  intros Hok Hel r. destruct (run_result _ _ Hok) as (_ & Hsweep & _).
  eapply sweep_moves; [done.. | apply NoDup_children | by apply eligible_listed | done].
Qed.

Lemma touched_listed w dir p :
  touched w dir (MemFs.children dir w) p ↔
  ∃ item, eligible w dir item = true ∧
          (p = PathOps.join dir item ∨ p = destinationOf dir item ∨
           p = PathOps.join dir (categoryOf item)).
Proof.
  unfold touched. rewrite Exists_exists. split.
  - intros (item & _ & ?). by exists item.
  - intros (item & Hel & ?). exists item. split; [by apply eligible_listed | done].
Qed.

End Layout.



(** The scenario of the specification: three files moved, the file without
    extension and the subfolder left alone, exit code 0. *)
Example scenario_run :
  let run := main ["node"; "main.js"; "/home/u/bagunca"] ["home"; "u"] scenario in
  exitCode run = 0 ∧
  stdout (final run) =
    [ start_line bagunca;
      moved_line "notes.txt" "documentos";
      moved_line "archive.zip" "arquivos_comprimidos";
      moved_line "photo.JPG" "imagens";
      success_line ] ∧
  stderr (final run) = [] ∧
  world (final run) !! ["home"; "u"; "bagunca"; "imagens"; "photo.JPG"]
    = Some (File "jpeg data") ∧
  world (final run) !! ["home"; "u"; "bagunca"; "run"] = Some (File "#!/bin/sh") ∧
  world (final run) !! ["home"; "u"; "bagunca"; "backup"] = Some Dir ∧
  world (final run) !! ["home"; "u"; "bagunca"; "photo.JPG"] = None.
Proof. intros run. split_and!; vm_compute; reflexivity. Qed.

(** An extension the table does not list goes to ["outros"]. *)
Example unknown_extension_goes_to_outros : categoryOf "data.xyz" = "outros".
Proof. vm_compute; reflexivity. Qed.

(** C10. In a run that goes through, when none of the destinations is taken
    beforehand (two entries never share a destination, their names being
    different), the files after the run are the files before it, each once
    and with its content: a file is where [relocate] puts its old path,
    which is that path itself unless it is an entry the run moves, and then
    the path of the same name in its category folder; and every file found
    after the run comes from exactly one path of the file system before. *)
Theorem files_preserved (dir : path) (w : gmap path node) :
  thrown dir (start w) = None →
  (∀ item, eligible w dir item = true → w !! destinationOf dir item = None) →
  let w' := world (organizeDirectory dir (start w)) in
  (∀ p content, w !! p = Some (File content) →
     w' !! relocate w dir p = Some (File content)) ∧
  (∀ q content, w' !! q = Some (File content) →
     ∃ p, w !! p = Some (File content) ∧ relocate w dir p = q ∧
          ∀ p', is_Some (w !! p') → relocate w dir p' = q → p' = p) ∧
  (∀ p, relocate w dir p = p ∨
        ∃ item, p = PathOps.join dir item ∧ eligible w dir item = true ∧
                relocate w dir p
                  = PathOps.join (PathOps.join dir (categoryOf item)) item).
Proof.
  intros Hok Hfree w'.
  destruct (run_result _ _ Hok) as (Hdir & Hsweep & _). fold w' in Hsweep.
  assert (∀ p, relocate w dir p = p ∨
            ∃ item, p = PathOps.join dir item ∧ eligible w dir item = true ∧
                    relocate w dir p = destinationOf dir item) as Hshape.
  { intros p. unfold relocate.
    destruct (MemFs.child_of dir p) as [item|] eqn:Hchild; [|by left].
    apply child_of_spec in Hchild as ->.
    destruct (eligible w dir item) eqn:Hel; [right | by left]. by exists item. }
  assert (∀ p, is_Some (w !! p) → ¬ touched w dir (MemFs.children dir w) p →
            relocate w dir p = p) as Hstay.
  { intros p _ Hno. destruct (Hshape p) as [?|(item & -> & Hel & _)]; [done|].
    destruct Hno. apply touched_listed. exists item. auto. }
  split_and!.
  - intros p content Hp.
    destruct (Hshape p) as [Hsame|(item & -> & Hel & ->)].
    + rewrite Hsame. rewrite (sweep_untouched _ _ _ _ _ _ Hsweep); [done|].
      intros (item & Hel & [-> | [-> | ->]])%touched_listed.
      * unfold relocate in Hsame. rewrite child_of_join, Hel in Hsame.
        symmetry in Hsame. by apply join_ne_destination in Hsame.
      * rewrite (Hfree _ Hel) in Hp. done.
      * destruct (run_moves _ _ _ Hok Hel) as (? & _ & _ & _ & Hfolder).
        fold w' in Hfolder.
        rewrite (sweep_keeps_others _ _ _ _ _ _ _ Hsweep Hp
                   (category_not_eligible _ _ _)) in Hfolder. done.
    + destruct (run_moves _ _ _ Hok Hel) as (c & Hsrc & Hdst & _).
      fold w' in Hdst. congruence.
  - intros q content Hq.
    destruct (decide (touched w dir (MemFs.children dir w) q)) as [Htouched|Hno].
    + apply touched_listed in Htouched as (item & Hel & Hcase).
      destruct (run_moves _ _ _ Hok Hel) as (c & Hsrc & Hdst & Hgone & Hfolder).
      fold w' in Hdst, Hgone, Hfolder.
      destruct Hcase as [-> | [-> | ->]]; [congruence| |congruence].
      assert (c = content) as -> by congruence.
      exists (PathOps.join dir item). split_and!; [done | |].
      * unfold relocate. by rewrite child_of_join, Hel.
      * intros p' Hsome Hto.
        destruct (Hshape p') as [Hsame|(item' & -> & _ & Hto')].
        -- rewrite Hsame in Hto. subst p'. rewrite (Hfree _ Hel) in Hsome.
           by destruct Hsome.
        -- rewrite Hto' in Hto. by apply destination_inj in Hto as ->.
    + rewrite (sweep_untouched _ _ _ _ _ _ Hsweep Hno) in Hq.
      exists q. split_and!; [done | by apply Hstay |].
      intros p' Hsome Hto.
      destruct (Hshape p') as [Hsame|(item' & -> & Hel' & Hto')]; [congruence|].
      destruct Hno. apply touched_listed. exists item'. split; [done|].
      right. left. congruence.
  - intros p. destruct (Hshape p) as [?|(item & ? & ? & ?)]; [by left | right].
    by exists item.
Qed.

Lemma files_preserved_witness :
  let w' := world (organizeDirectory bagunca (start scenario)) in
  w' !! relocate scenario bagunca (PathOps.join bagunca "photo.JPG")
    = Some (File "jpeg data") ∧
  relocate scenario bagunca (PathOps.join bagunca "photo.JPG")
    = ["home"; "u"; "bagunca"; "imagens"; "photo.JPG"] ∧
  w' !! relocate scenario bagunca (PathOps.join bagunca "run")
    = Some (File "#!/bin/sh") ∧
  relocate scenario bagunca (PathOps.join bagunca "run")
    = ["home"; "u"; "bagunca"; "run"].
Proof.
  intros w'.
  destruct (files_preserved bagunca scenario) as (Hkept & _ & _).
  - vm_compute; reflexivity.
  - intros item Hel. apply eligible_listed in Hel.
    vm_compute in Hel.
    repeat (apply elem_of_cons in Hel as [->|Hel]; [vm_compute; reflexivity|]).
    by apply elem_of_nil in Hel.
  - split_and!.
    + apply Hkept. vm_compute; reflexivity.
    + vm_compute; reflexivity.
    + apply Hkept. vm_compute; reflexivity.
    + vm_compute; reflexivity.
Defined.

(** * Further properties of the code *)

(** ** The calls of a run, on any file system *)

Section Trace.

Context {W : Type} `{FileSystem W}.

Implicit Types (s : process W) (dir : path) (item : string).

(** The loop body makes a non-empty initial part of [itemCalls], in that
    order, and nothing else. *)
Lemma processItem_block dir item s s' r :
  processItem dir item s = (s', r) →
  ∃ block, calls s' = calls s ++ block ∧ block ≠ [] ∧
           block `prefix_of` itemCalls dir item.
Proof.
  unfold processItem, mbind, io_bind, stat, mkdir, rename, settle, log, itemCalls.
  assert (∀ (c : syscall) (rest : list syscall), [c] `prefix_of` c :: rest) as Hone.
  { intros c rest. by exists rest. }
  destruct (fs_stat _ _) as [?|st].
  { intros [= <- _]. eexists. split_and!; [done|done|apply Hone]. }
  destruct (_ || _).
  { intros [= <- _]. eexists. split_and!; [done|done|apply Hone]. }
  destruct (fileExtensionOf item) as [|c ext] eqn:Hext; simpl.
  { intros [= <- _]. eexists. split_and!; [done|done|apply Hone]. }
  unfold categoryOf. rewrite Hext.
  destruct (fs_mkdir_recursive _ _) as [? [?|]]; simpl.
  { intros [= <- _]. simpl. rewrite <- app_assoc. eexists. split_and!; [done|done|].
    by eexists [_]. }
  destruct (fs_rename _ _ _) as [? [?|]]; simpl; intros [= <- _]; simpl;
    rewrite <- !app_assoc; eexists; (split_and!; [done|done|]); by exists [].
Qed.

Lemma forEachItem_blocks dir items s s' r :
  forEachItem dir items s = (s', r) →
  ∃ visited blocks,
    calls s' = calls s ++ concat blocks ∧
    visited `prefix_of` items ∧
    Forall2 (λ item block, block ≠ [] ∧ block `prefix_of` itemCalls dir item)
      visited blocks.
Proof.
  revert s. induction items as [|item items IH]; intros s; simpl.
  - intros [= <- _]. exists [], []. simpl. by rewrite app_nil_r.
  - unfold mbind, io_bind.
    destruct (processItem dir item s) as [s1 r1] eqn:Hitem.
    destruct (processItem_block _ _ _ _ _ Hitem) as (block & Hc & Hne & Hpre).
    destruct r1 as [e|[]].
    + intros [= <- _]. exists [item], [block]. simpl. rewrite app_nil_r.
      split_and!; [done | by exists items | by repeat constructor].
    + intros Hrest. destruct (IH _ Hrest) as (visited & blocks & Hc' & Hvis & Hall).
      exists (item :: visited), (block :: blocks). simpl.
      split_and!; [by rewrite Hc', Hc, <- app_assoc | by apply prefix_cons | by constructor].
Qed.

(** What the loop prints: lines of the form [moved_line]. *)
Lemma processItem_stdout dir item s s' r :
  processItem dir item s = (s', r) →
  stdout s' = stdout s ∨
  (r = inr () ∧ stdout s' = stdout s ++ [moved_line item (categoryOf item)]).
Proof.
  unfold processItem, mbind, io_bind, stat, mkdir, rename, settle, log.
  destruct (fs_stat _ _) as [?|st]; [intros [= <- _]; by left|].
  destruct (_ || _); [intros [= <- _]; by left|].
  destruct (fileExtensionOf item) as [|c ext] eqn:Hext; simpl;
    [intros [= <- _]; by left|].
  unfold categoryOf. rewrite Hext.
  destruct (fs_mkdir_recursive _ _) as [? [?|]]; simpl; [intros [= <- _]; by left|].
  destruct (fs_rename _ _ _) as [? [?|]]; simpl; intros [= <- <-]; [by left|by right].
Qed.

Lemma forEachItem_stdout dir items s s' r :
  forEachItem dir items s = (s', r) →
  ∃ lines, stdout s' = stdout s ++ lines ∧
           Forall (λ line, ∃ item folder, line = moved_line item folder) lines.
Proof.
  revert s. induction items as [|item items IH]; intros s; simpl.
  - intros [= <- _]. exists []. by rewrite app_nil_r.
  - unfold mbind, io_bind.
    destruct (processItem dir item s) as [s1 r1] eqn:Hitem.
    assert (∃ lines, stdout s1 = stdout s ++ lines ∧
              Forall (λ line, ∃ item folder, line = moved_line item folder) lines)
      as (lines1 & Ho1 & Hall1).
    { destruct (processItem_stdout _ _ _ _ _ Hitem) as [->|[_ ->]].
      - exists []. by rewrite app_nil_r.
      - eexists [_]. split; [done|]. repeat constructor. eauto. }
    destruct r1 as [e|[]].
    + intros [= <- _]. by exists lines1.
    + intros Hrest. destruct (IH _ Hrest) as (lines & Ho & Hall).
      exists (lines1 ++ lines). split; [by rewrite Ho, Ho1, <- app_assoc|].
      by apply Forall_app.
Qed.

Lemma moved_line_not_success item folder : moved_line item folder ≠ success_line.
Proof. unfold moved_line, success_line. simpl. discriminate. Qed.

Lemma start_line_not_success dir : start_line dir ≠ success_line.
Proof. unfold start_line, success_line. simpl. discriminate. Qed.

End Trace.

(** X1. Without a directory argument, or with the empty string for one, the
    entry point prints the two usage lines on standard error and exits with
    code 1 before anything is asked of the file system; and code 1 is
    returned in no other case. *)
Theorem usage_error_touches_nothing {W : Type} `{FileSystem W}
    (argv : list string) (cwd : path) (w : W) :
  let run := main argv cwd w in
  (exitCode run = 1 ↔ argv !! 2%nat = None ∨ argv !! 2%nat = Some "") ∧
  (exitCode run = 1 →
     stderr (final run) = [usage_error; usage_line] ∧
     stdout (final run) = [] ∧ calls (final run) = [] ∧ world (final run) = w).
Proof.
  unfold main. destruct (argv !! 2%nat) as [[|c target]|]; simpl.
  - split; [split; auto|done].
  - split; [|done]. split; [done|]. intros [?|?]; done.
  - split; [split; auto|done].
Qed.

(** X2. On any file system, the calls of a run are the listing of the
    target directory followed by one block per entry, for the entries of the
    listing in their order up to the last one visited; the block of an entry
    is its [stat], then perhaps the [mkdir] of its category folder, then
    perhaps its [rename] into that folder.  So the run lists no other
    directory, passes no path outside the target directory, and never
    renames an entry whose folder it has not just made sure of. *)
Theorem calls_follow_listing {W : Type} `{FileSystem W} (dir : path) (w : W) :
  let r := organizeDirectory dir (start w) in
  ∃ visited blocks,
    calls r = Readdir dir :: concat blocks ∧
    Forall2 (λ item block, block ≠ [] ∧ block `prefix_of` itemCalls dir item)
      visited blocks ∧
    match fs_readdir dir w with
    | inr items => visited `prefix_of` items
    | inl _ => visited = []
    end.
Proof.
  intros r. unfold r. destruct (fs_readdir dir w) as [e|items] eqn:Hrd.
  - rewrite (organizeDirectory_listing_fails _ _ _ Hrd).
    exists [], []. split_and!; [|constructor|done].
    by destruct (catchBlock_rest e
      (called (Readdir dir) (console_log (start_line dir) (start w)))) as (_ & -> & _).
  - rewrite (organizeDirectory_loop _ _ _ Hrd).
    destruct (forEachItem dir items _) as [s' r'] eqn:Hloop.
    destruct (forEachItem_blocks _ _ _ _ _ Hloop) as (visited & blocks & Hc & Hvis & Hall).
    exists visited, blocks. split_and!; [|done..].
    destruct r' as [e|[]]; [|done].
    by destruct (catchBlock_rest e s') as (_ & -> & _).
Qed.

(** X3. On any file system a run tells how it ended.  When nothing was
    thrown, standard error stays empty and the last line printed is the
    success line.  When something was thrown, by the listing or for an
    entry, standard error holds the error line, followed by the hint exactly
    when the error code is [ENOENT], and the success line is not printed. *)
Theorem run_reports_outcome {W : Type} `{FileSystem W} (dir : path) (w : W) :
  let r := organizeDirectory dir (start w) in
  match thrown dir (start w) with
  | None => stderr r = [] ∧ last (stdout r) = Some success_line
  | Some e =>
      stderr r =
        error_line e :: (if bool_decide (code e = "ENOENT") then [hint_line] else []) ∧
      success_line ∉ stdout r
  end.
Proof.
  intros r. unfold r. destruct (fs_readdir dir w) as [e|items] eqn:Hrd.
  - rewrite (thrown_listing_fails _ _ _ Hrd), (organizeDirectory_listing_fails _ _ _ Hrd).
    rewrite catchBlock_stderr.
    destruct (catchBlock_rest e
      (called (Readdir dir) (console_log (start_line dir) (start w)))) as (_ & _ & ->).
    split; [done|]. simpl. intros Hin%list_elem_of_singleton.
    by apply (start_line_not_success dir).
  - rewrite (thrown_loop _ _ _ Hrd), (organizeDirectory_loop _ _ _ Hrd).
    destruct (forEachItem dir items _) as [s' r'] eqn:Hloop.
    pose proof (forEachItem_stderr _ _ _ _ _ Hloop) as Herr.
    destruct (forEachItem_stdout _ _ _ _ _ Hloop) as (lines & Hout & Hlines).
    simpl in Herr, Hout. destruct r' as [e|[]].
    + rewrite catchBlock_stderr, Herr.
      destruct (catchBlock_rest e s') as (_ & _ & ->). split; [done|].
      rewrite Hout. intros [Hin|Hin]%elem_of_cons.
      * by apply (start_line_not_success dir).
      * rewrite Forall_forall in Hlines.
        destruct (Hlines _ Hin) as (item & folder & Heq).
        by apply (moved_line_not_success item folder).
    + simpl. split; [done|]. apply last_snoc.
Qed.

(** ** The table *)

(** X4. No extension is listed under two categories, so the classifier
    returns, for an extension the table lists, the category that lists it. *)
Theorem listed_extension_category (folder : string) (extensions : list string)
    (e : string) :
  (folder, extensions) ∈ FOLDER_MAPPING → e ∈ extensions →
  getDestinationFolder e = folder ∧
  ∀ folder' extensions',
    (folder', extensions') ∈ FOLDER_MAPPING → e ∈ extensions' → folder' = folder.
Proof.
  intros Hentry Hext.
  assert (∀ f x, (f, x) ∈ FOLDER_MAPPING → e ∈ x → getDestinationFolder e = f) as Hall.
  { clear. intros f x Hentry Hext. table_cases Hentry Hext ltac:(fun _ => reflexivity). }
  split; [by eapply Hall|].
  intros folder' extensions' Hentry' Hext'.
  rewrite <- (Hall _ _ Hentry Hext). symmetry. by eapply Hall.
Qed.

Lemma listed_extension_category_witness :
  getDestinationFolder ".mkv" = "videos" ∧
  ∀ folder' extensions',
    (folder', extensions') ∈ FOLDER_MAPPING → ".mkv" ∈ extensions' →
    folder' = "videos".
Proof.
  apply (listed_extension_category "videos" [".mp4"; ".mkv"; ".avi"; ".mov"; ".wmv"]).
  - unfold FOLDER_MAPPING. do 2 right. left.
  - right. left.
Defined.

(** X5. The classifier compares strings as they are: an extension gets a
    category other than ["outros"] only if it is one of the table's, and
    those are all a dot followed by one or more characters without a dot,
    none of them an upper-case letter.  An extension that still has an
    upper-case letter is classified as ["outros"]. *)
Theorem classified_extensions_are_lower_case (e : string) :
  getDestinationFolder e ≠ "outros" →
  JsString.toLowerCase e = e ∧
  ∃ rest, e = String Path.CHAR_DOT rest ∧ rest ≠ "" ∧
          Path.CHAR_DOT ∉ list_ascii_of_string rest.
Proof.
  intros Hne.
  destruct (searchFolders_first_match FOLDER_MAPPING e)
    as [(pre & folder & extensions & post & Htable & Hext & _)|[_ Hout]];
    [|done].
  assert ((folder, extensions) ∈ FOLDER_MAPPING) as Hentry.
  { rewrite Htable. apply elem_of_app. right. left. }
  clear Htable Hne.
  table_cases Hentry Hext
    ltac:(fun _ =>
          split; [reflexivity|]; eexists; split_and!; [reflexivity|discriminate|];
          simpl; intros Hin;
          repeat (apply elem_of_cons in Hin as [Hin|Hin]; [discriminate Hin|]);
          by apply elem_of_nil in Hin).
Qed.

Lemma classified_extensions_are_lower_case_witness :
  JsString.toLowerCase ".png" = ".png" ∧
  ∃ rest, ".png" = String Path.CHAR_DOT rest ∧ rest ≠ "" ∧
          Path.CHAR_DOT ∉ list_ascii_of_string rest.
Proof.
  apply (classified_extensions_are_lower_case ".png").
  vm_compute. discriminate.
Defined.

Example upper_case_extension_unclassified : getDestinationFolder ".JPG" = "outros".
Proof. reflexivity. Qed.

(** ** Names with several dots *)

Section LastDot.

Import JsString Path.

Lemma chars_app (a b : string) :
  list_ascii_of_string (a +:+ b) = list_ascii_of_string a ++ list_ascii_of_string b.
Proof. induction a as [|c a IH]; simpl; [done | by rewrite IH]. Qed.

Lemma chars_length (a : string) :
  length (list_ascii_of_string a) = String.length a.
Proof. induction a as [|c a IH]; simpl; [done | by rewrite IH]. Qed.

Lemma substring_all (a : string) : substring 0 (String.length a) a = a.
Proof. induction a as [|c a IH]; simpl; [done | by rewrite IH]. Qed.

Lemma substring_tail (a b : string) :
  substring (String.length a) (String.length b) (a +:+ b) = b.
Proof. induction a as [|c a IH]; simpl; [apply substring_all | done]. Qed.

(** Before the first dot is met, characters that are neither a dot nor a
    slash only mark where the name ends. *)
Lemma extname_loop_tail (visit rest : list ascii) (i : Z) (st : scan) :
  CHAR_DOT ∉ visit → CHAR_FORWARD_SLASH ∉ visit →
  startDot st = -1 → preDotState st = 0 →
  Z.of_nat (length visit) ≤ i + 1 →
  ∃ st',
    extname_loop (visit ++ rest) i st
      = extname_loop rest (i - Z.of_nat (length visit)) st' ∧
    startDot st' = -1 ∧ preDotState st' = 0 ∧ startPart st' = startPart st ∧
    end_ st' = (if end_ st =? -1
                then match visit with [] => -1 | _ :: _ => i + 1 end
                else end_ st).
Proof.
  revert i st. induction visit as [|c visit IH]; intros i st Hdot Hslash Hsd Hpd Hlen.
  - exists st. simpl. rewrite Z.sub_0_r. split_and!; try done.
    by destruct (Z.eqb_spec (end_ st) (-1)).
  - apply not_elem_of_cons in Hdot as [Hc Hdot].
    apply not_elem_of_cons in Hslash as [Hc' Hslash].
    cbn [app extname_loop].
    destruct (Ascii.eqb_spec c CHAR_FORWARD_SLASH) as [->|_]; [done|].
    assert (see_char c i (see_end i st) = see_end i st) as ->.
    { unfold see_char. destruct (Ascii.eqb_spec c CHAR_DOT) as [->|_]; [done|].
      unfold see_end. destruct (end_ st =? -1); simpl; by rewrite Hsd. }
    cbn [length] in Hlen.
    destruct (IH (i - 1) (see_end i st)) as (st' & Heq & ? & ? & Hsp & Hend);
      try done.
    { unfold see_end. by destruct (end_ st =? -1). }
    { unfold see_end. by destruct (end_ st =? -1). }
    { lia. }
    exists st'. split_and!; try done.
    + rewrite Heq. f_equal. cbn [length]. lia.
    + rewrite Hsp. unfold see_end. by destruct (end_ st =? -1).
    + rewrite Hend. unfold see_end.
      destruct (end_ st =? -1) eqn:He; simpl; [|by rewrite He].
      destruct (i + 1 =? -1) eqn:Hi; [lia | done].
Qed.

(** After the first dot is met, the characters before it only record
    whether the last one seen was a dot. *)
Lemma extname_loop_head (visit : list ascii) (i : Z) (st : scan) :
  CHAR_FORWARD_SLASH ∉ visit → startDot st ≠ -1 → end_ st ≠ -1 →
  let st' := extname_loop visit i st in
  startDot st' = startDot st ∧ end_ st' = end_ st ∧ startPart st' = startPart st ∧
  match last visit with
  | None => preDotState st' = preDotState st
  | Some c => preDotState st' = if Ascii.eqb c CHAR_DOT then 1 else -1
  end.
Proof.
  revert i st. induction visit as [|c visit IH]; intros i st Hslash Hsd Hend; simpl.
  - done.
  - apply not_elem_of_cons in Hslash as [Hc Hslash].
    destruct (Ascii.eqb_spec c CHAR_FORWARD_SLASH) as [->|_]; [done|].
    assert (see_end i st = st) as ->.
    { unfold see_end. destruct (Z.eqb_spec (end_ st) (-1)); done. }
    set (st1 := see_char c i st).
    assert (startDot st1 = startDot st ∧ end_ st1 = end_ st ∧
            startPart st1 = startPart st ∧
            preDotState st1 = if Ascii.eqb c CHAR_DOT then 1 else -1)
      as (Hsd1 & Hend1 & Hsp1 & Hpd1).
    { unfold st1, see_char. destruct (Ascii.eqb c CHAR_DOT).
      - destruct (Z.eqb_spec (startDot st) (-1)); [done|].
        destruct (Z.eqb_spec (preDotState st) 1); simpl; done.
      - destruct (Z.eqb_spec (startDot st) (-1)); [done|]. simpl. done. }
    destruct (IH (i - 1) st1) as (Hsd' & Hend' & Hsp' & Hlast); [done|congruence..|].
    split_and!; [congruence..|].
    destruct visit as [|c' visit']; [done|]. rewrite last_cons_cons.
    destruct (last (c' :: visit')) eqn:Hl; [exact Hlast|]. by apply last_None in Hl.
Qed.

End LastDot.

(** X6. For a name [stem.ext] whose stem is not empty and whose last part
    [ext] has no dot (no part of the name having a slash, and the name not
    being [..]), the extension the script extracts is the dot and [ext]:
    the last dot decides, however many dots the stem has, and [ext] may be
    empty.  The category of the entry is the one of that extension,
    lower-cased. *)
Theorem extension_after_last_dot (stem ext : string) :
  stem ≠ "" →
  Path.CHAR_FORWARD_SLASH ∉ list_ascii_of_string stem →
  Path.CHAR_FORWARD_SLASH ∉ list_ascii_of_string ext →
  Path.CHAR_DOT ∉ list_ascii_of_string ext →
  stem +:+ String Path.CHAR_DOT ext ≠ ".." →
  Path.extname (stem +:+ String Path.CHAR_DOT ext) = String Path.CHAR_DOT ext ∧
  categoryOf (stem +:+ String Path.CHAR_DOT ext)
    = getDestinationFolder (String Path.CHAR_DOT (JsString.toLowerCase ext)).
Proof.
  intros Hstem Hslash_stem Hslash_ext Hdot_ext Hdots.
  assert (Path.extname (stem +:+ String Path.CHAR_DOT ext) = String Path.CHAR_DOT ext)
    as Hext; [|split; [done|]; unfold categoryOf, fileExtensionOf; by rewrite Hext].
  unfold Path.extname.
  set (name := stem +:+ String Path.CHAR_DOT ext).
  set (sl := list_ascii_of_string stem). set (el := list_ascii_of_string ext).
  assert (list_ascii_of_string name = sl ++ Path.CHAR_DOT :: el) as Hchars.
  { unfold name. by rewrite chars_app. }
  rewrite Hchars, rev_app_distr. cbn [rev]. rewrite <- app_assoc. cbn [app].
  rewrite length_app. cbn [length].
  set (j := Z.of_nat (length sl)). set (n := Z.of_nat (length el)).
  replace (Z.of_nat (length sl + S (length el)) - 1) with (j + n) by lia.
  destruct (extname_loop_tail (rev el) (Path.CHAR_DOT :: rev sl) (j + n) Path.scan_init)
    as (st1 & -> & Hsd1 & Hpd1 & Hsp1 & Hend1);
    [by rewrite elem_of_rev | by rewrite elem_of_rev | done | done
    | rewrite length_rev; lia |].
  rewrite length_rev. fold n. replace (j + n - n) with j by lia.
  cbn [Path.extname_loop]. change (Ascii.eqb Path.CHAR_DOT Path.CHAR_FORWARD_SLASH) with false.
  cbv iota.
  set (st2 := Path.see_char Path.CHAR_DOT j (Path.see_end j st1)).
  assert (Path.startDot st2 = j ∧ Path.end_ st2 = j + n + 1 ∧ Path.startPart st2 = 0)
    as (Hsd2 & Hend2 & Hsp2).
  { unfold st2, Path.see_char, Path.see_end.
    change (Ascii.eqb Path.CHAR_DOT Path.CHAR_DOT) with true. cbv iota.
    simpl in Hend1.
    destruct (Z.eqb_spec (Path.end_ st1) (-1)) as [Hm|Hm]; simpl; rewrite Hsd1; simpl.
    - split_and!; [done| |done].
      destruct (rev el) eqn:Hrev; [|lia].
      apply (f_equal (@length _)) in Hrev. rewrite length_rev in Hrev.
      simpl in Hrev. lia.
    - split_and!; [done| |done].
      destruct (rev el) eqn:Hrev; [done|]. done. }
  destruct (extname_loop_head (rev sl) (j - 1) st2) as (Hsd3 & Hend3 & Hsp3 & Hlast);
    [by rewrite elem_of_rev | lia | lia |].
  set (st3 := Path.extname_loop (rev sl) (j - 1) st2) in *.
  assert (0 < j) as Hj.
  { unfold j, sl. destruct stem; [done|]. simpl. lia. }
  assert (Path.no_extension st3 = false) as ->.
  { unfold Path.no_extension. rewrite Hsd3, Hend3, Hsp3, Hsd2, Hend2, Hsp2.
    destruct (Z.eqb_spec j (-1)); [lia|].
    destruct (Z.eqb_spec (j + n + 1) (-1)); [lia|]. simpl.
    destruct (last (rev sl)) as [c|] eqn:Hc.
    2: { apply last_None in Hc. apply (f_equal (@length _)) in Hc.
         rewrite length_rev in Hc. simpl in Hc. lia. }
    rewrite Hlast.
    destruct (Ascii.eqb_spec c Path.CHAR_DOT) as [->|_]; [|done]. simpl.
    destruct (Z.eqb_spec j (j + n + 1 - 1)) as [Hn|_]; [|done].
    destruct (Z.eqb_spec j (0 + 1)) as [Hone|_]; [|done]. simpl.
    destruct Hdots. unfold name, j, n, sl, el in *.
    destruct stem as [|c1 [|c2 stem]]; simpl in *; try lia; try done.
    destruct ext; simpl in *; [|lia]. by injection Hc as ->. }
  unfold JsString.slice. rewrite Hsd3, Hend3, Hsd2, Hend2.
  replace (Z.to_nat j) with (String.length stem)
    by (unfold j, sl; rewrite chars_length; lia).
  replace (Z.to_nat (j + n + 1 - j)) with (String.length (String Path.CHAR_DOT ext))
    by (unfold n, el; rewrite chars_length; simpl; lia).
  apply substring_tail.
Qed.

Lemma extension_after_last_dot_witness :
  Path.extname "archive.tar.gz" = ".gz" ∧
  categoryOf "archive.tar.gz" = getDestinationFolder ".gz" ∧
  Path.extname "relatorio." = "." ∧
  categoryOf "relatorio." = getDestinationFolder ".".
Proof.
  assert (∀ l : list ascii, Forall (λ c, c ≠ Path.CHAR_FORWARD_SLASH ∧ c ≠ Path.CHAR_DOT) l →
            (Path.CHAR_FORWARD_SLASH ∉ l) ∧ (Path.CHAR_DOT ∉ l)) as Hfree.
  { intros l Hl. rewrite Forall_forall in Hl. split; intros Hin; by destruct (Hl _ Hin). }
  destruct (extension_after_last_dot "archive.tar" "gz") as [H1 H2].
  - discriminate.
  - vm_compute. intros Hin.
    repeat (apply elem_of_cons in Hin as [Hin|Hin]; [discriminate Hin|]).
    by apply elem_of_nil in Hin.
  - apply Hfree. vm_compute. repeat constructor; discriminate.
  - apply Hfree. vm_compute. repeat constructor; discriminate.
  - discriminate.
  - destruct (extension_after_last_dot "relatorio" "") as [H3 H4].
    + discriminate.
    + apply Hfree. vm_compute. repeat constructor; discriminate.
    + vm_compute. apply not_elem_of_nil.
    + vm_compute. apply not_elem_of_nil.
    + discriminate.
    + split_and!; [exact H1 | exact H2 | exact H3 | exact H4].
Defined.

(** ** More on runs on the in-memory file system *)

Section MoreRuns.

Import MemFs.

Implicit Types (w : gmap path node) (dir p : path) (item name : string).
Implicit Types (s : process (gmap path node)).

Lemma eligible_not_category w dir name item :
  eligible w dir name = true → name ≠ categoryOf item.
Proof.
  intros (_ & _ & Hext)%eligible_spec ->. by destruct (category_plain item).
Qed.

(** The loop body leaves the other entries of the directory alone. *)
Lemma after_other_entry w dir item name :
  name ≠ item → is_Some (w !! PathOps.join dir name) →
  after dir item w !! PathOps.join dir name = w !! PathOps.join dir name.
Proof.
  intros Hne [x Hx]. destruct (eligible w dir name) eqn:Hel.
  - apply after_frame. intros _. split_and!.
    + by intros ?%join_inj.
    + apply join_ne_destination.
    + intros ?%join_inj. by eapply eligible_not_category.
  - rewrite Hx. by apply after_keeps_others.
Qed.

Lemma sweep_other_entry dir items w w' ok name :
  sweep dir items w w' ok → name ∉ items →
  is_Some (w !! PathOps.join dir name) →
  w' !! PathOps.join dir name = w !! PathOps.join dir name.
Proof.
  induction 1 as [| item rest w w' ok _ _ IH | item rest w _]; intros Hnot Hsome;
    [done| |]; apply not_elem_of_cons in Hnot as [Hne Hnot].
  - rewrite IH; [by apply after_other_entry | done |].
    by rewrite after_other_entry.
  - by apply after_other_entry.
Qed.

(** An entry for which the loop body throws is left where it is. *)
Lemma after_failed_entry w dir item :
  continues (fateOf w dir item) = false →
  after dir item w !! PathOps.join dir item = w !! PathOps.join dir item.
Proof.
  unfold after. destruct (fateOf w dir item) eqn:Hfate; try done. intros _.
  apply fate_target_is_directory in Hfate as [Hel _]. unfold withFolder.
  rewrite lookup_insert_ne; [done|].
  intros ?%join_inj. by eapply eligible_not_category.
Qed.

(** What the loop body adds to the directory is the folder of an entry it
    moves. *)
Lemma after_added w dir item name x :
  after dir item w !! PathOps.join dir name = Some x →
  w !! PathOps.join dir name = Some x ∨
  (x = Dir ∧ eligible w dir item = true ∧ categoryOf item = name).
Proof.
  unfold after. destruct (fateOf w dir item) eqn:Hfate; auto;
    unfold moveFile, withFolder.
  - apply fate_target_is_directory in Hfate as [Hel _].
    destruct (decide (PathOps.join dir (categoryOf item) = PathOps.join dir name))
      as [Heq|?]; [|rewrite lookup_insert_ne by done; auto].
    rewrite Heq, lookup_insert_eq. intros [= <-]. right.
    by apply join_inj in Heq.
  - apply fate_moved in Hfate as (_ & Hel & _).
    rewrite lookup_insert_ne by (symmetry; apply join_ne_destination).
    destruct (decide (PathOps.join dir item = PathOps.join dir name)) as [->|?];
      [by rewrite lookup_delete_eq | rewrite lookup_delete_ne by done].
    destruct (decide (PathOps.join dir (categoryOf item) = PathOps.join dir name))
      as [Heq|?]; [|rewrite lookup_insert_ne by done; auto].
    rewrite Heq, lookup_insert_eq. intros [= <-]. right.
    by apply join_inj in Heq.
Qed.

Lemma sweep_added dir items w w' ok name x :
  sweep dir items w w' ok →
  w' !! PathOps.join dir name = Some x →
  w !! PathOps.join dir name = Some x ∨
  (x = Dir ∧ ∃ item, item ∈ items ∧ eligible w dir item = true ∧
                     categoryOf item = name).
Proof.
  induction 1 as [| item rest w w' ok _ _ IH | item rest w _]; intros Hx; [by left| |].
  - destruct (IH Hx) as [Hx1|(-> & item' & Hin & Hel & Hcat)].
    + destruct (after_added _ _ _ _ _ Hx1) as [?|(-> & ? & ?)]; [by left|].
      right. split; [done|]. exists item. split; [by left | done].
    + right. split; [done|]. exists item'.
      split_and!; [by right | by eapply after_eligible_mono | done].
  - destruct (after_added _ _ _ _ _ Hx) as [?|(-> & ? & ?)]; [by left|].
    right. split; [done|]. exists item. split; [by left | done].
Qed.

(** A file of the directory is, after a loop, in place or moved. *)
Lemma sweep_entry dir items w w' ok name content :
  sweep dir items w w' ok → NoDup items →
  w !! PathOps.join dir name = Some (File content) →
  w' !! PathOps.join dir name = Some (File content) ∨
  (name ∈ items ∧ eligible w dir name = true ∧
   w' !! PathOps.join dir name = None ∧
   w' !! destinationOf dir name = Some (File content) ∧
   w' !! PathOps.join dir (categoryOf name) = Some Dir).
Proof.
  induction 1 as [| item rest w w' ok Hgo Hrest IH | item rest w Hstop];
    intros Hnd Hname; [by left| |]; apply NoDup_cons in Hnd as [Hfirst Hnd].
  - destruct (decide (name = item)) as [->|Hne].
    + destruct (fateOf w dir item) eqn:Hfate; try done.
      * left. rewrite (sweep_other_entry _ _ _ _ _ _ Hrest Hfirst);
          unfold after in *; rewrite Hfate in *; [done | by eexists].
      * pose proof (fate_moved _ _ _ _ Hfate) as (Hitem & Hel & _).
        assert (content0 = content) as -> by congruence.
        destruct (after_moved _ _ _ _ Hfate) as (Hdst & Hsrc & Hfolder).
        right. split_and!; [by left | done | | | by eapply sweep_keeps_directories].
        -- rewrite (sweep_frame _ _ _ _ _ _ Hrest); [done|].
           intros j Hj Helj. split_and!.
           ++ intros ?%join_inj. congruence.
           ++ apply join_ne_destination.
           ++ intros Heq%join_inj. by apply (eligible_not_category _ _ _ j Hel).
        -- rewrite (sweep_frame _ _ _ _ _ _ Hrest); [done|].
           intros j Hj _. split_and!.
           ++ intros Heq. by apply (join_ne_destination dir j item).
           ++ intros ?%destination_inj. congruence.
           ++ intros Heq. by apply (join_ne_destination dir (categoryOf j) item).
    + assert (after dir item w !! PathOps.join dir name = Some (File content)) as Hname1.
      { rewrite after_other_entry; [done..|by eexists]. }
      destruct (IH Hnd Hname1) as [?|(Hin & Hel & ? & ? & ?)]; [by left|].
      right. split_and!; [by right | by eapply after_eligible_mono | done..].
  - left. destruct (decide (name = item)) as [->|Hne].
    + by rewrite after_failed_entry.
    + rewrite after_other_entry; [done..|by eexists].
Qed.

Lemma flat_map_lines w dir (items : list string) :
  flat_map (linesFor w dir) items =
    map (λ item, moved_line item (categoryOf item))
      (filter (λ item, eligible w dir item = true) items).
Proof.
  induction items as [|item items IH]; simpl; [done|].
  rewrite filter_cons. unfold linesFor at 1.
  destruct (decide (eligible w dir item = true)) as [Hel|Hel].
  - rewrite Hel. simpl. by rewrite IH.
  - apply not_true_is_false in Hel. by rewrite Hel.
Qed.

Lemma filter_calls (f : syscall → bool) (pick : string → syscall) w dir
    (items : list string) :
  (∀ item, filter f (callsFor w dir item)
           = if eligible w dir item then [pick item] else []) →
  filter f (flat_map (callsFor w dir) items) =
    map pick (filter (λ item, eligible w dir item = true) items).
Proof.
  intros Hpick. induction items as [|item items IH]; simpl; [done|].
  rewrite filter_app, Hpick, IH, (filter_cons (λ item, eligible w dir item = true)).
  destruct (decide (eligible w dir item = true)) as [Hel|Hel].
  - by rewrite Hel.
  - apply not_true_is_false in Hel. by rewrite Hel.
Qed.

End MoreRuns.

Section RunLemmas.

Import MemFs.

Implicit Types (w : gmap path node) (dir p : path) (item name : string).

(** A file of the target directory after any run: in place, or in its
    category folder. *)
Lemma run_entry dir w name content :
  w !! PathOps.join dir name = Some (File content) →
  let r := organizeDirectory dir (start w) in
  world r !! PathOps.join dir name = Some (File content) ∨
  (eligible w dir name = true ∧
   world r !! PathOps.join dir name = None ∧
   world r !! destinationOf dir name = Some (File content) ∧
   world r !! PathOps.join dir (categoryOf name) = Some Dir).
Proof.
  intros Hname r. unfold r.
  destruct (organizeDirectory_world dir w) as [->|(ok & _ & Hsweep)]; [by left|].
  destruct (sweep_entry _ _ _ _ _ _ _ Hsweep (NoDup_children _ _) Hname)
    as [?|(_ & ?)]; [by left | by right].
Qed.

Lemma run_keeps_directories dir w p :
  w !! p = Some Dir → world (organizeDirectory dir (start w)) !! p = Some Dir.
Proof.
  intros Hp. destruct (organizeDirectory_world dir w) as [->|(ok & _ & Hsweep)];
    [done | by eapply sweep_keeps_directories].
Qed.

End RunLemmas.

(** X7. A run that goes through prints, between the opening and the closing
    line, one line per entry it moves, in the order of the listing, and
    these are the entries of its [rename] calls and of its [mkdir] calls, in
    the same order: what is reported is what was moved. *)
Theorem moves_are_reported (dir : path) (w : gmap path node) :
  thrown dir (start w) = None →
  let r := organizeDirectory dir (start w) in
  stdout r =
    start_line dir ::
    map (λ item, moved_line item (categoryOf item)) (movedEntries w dir)
    ++ [success_line] ∧
  renames r =
    map (λ item, Rename (PathOps.join dir item)
                   (PathOps.join (PathOps.join dir (categoryOf item)) item))
      (movedEntries w dir) ∧
  mkdirs r =
    map (λ item, Mkdir (PathOps.join dir (categoryOf item))) (movedEntries w dir).
Proof.
  intros Hok r. destruct (run_result _ _ Hok) as (_ & _ & Hcalls & Hout & _).
  fold r in Hcalls, Hout. unfold renames, mkdirs, movedEntries.
  rewrite Hout, Hcalls, flat_map_lines. split_and!; [done| |].
  - rewrite filter_cons. simpl. apply filter_calls.
    intros item. unfold callsFor. by destruct (eligible w dir item).
  - rewrite filter_cons. simpl. apply filter_calls.
    intros item. unfold callsFor. by destruct (eligible w dir item).
Qed.

Lemma moves_are_reported_witness :
  let r := organizeDirectory bagunca (start scenario) in
  movedEntries scenario bagunca = ["notes.txt"; "archive.zip"; "photo.JPG"] ∧
  stdout r =
    start_line bagunca ::
    map (λ item, moved_line item (categoryOf item)) (movedEntries scenario bagunca)
    ++ [success_line] ∧
  renames r =
    map (λ item, Rename (PathOps.join bagunca item)
                   (PathOps.join (PathOps.join bagunca (categoryOf item)) item))
      (movedEntries scenario bagunca).
Proof.
  intros r.
  destruct (moves_are_reported bagunca scenario) as (Hout & Hren & _).
  - vm_compute; reflexivity.
  - split_and!; [vm_compute; reflexivity | exact Hout | exact Hren].
Defined.

(** X8. After a run that goes through, nothing in the target directory is
    left for the organizer to move: every entry is a directory, or a file
    named ["main.js"], or a file whose name has no extension. *)
Theorem nothing_left_to_move (dir : path) (w : gmap path node) :
  thrown dir (start w) = None →
  let r := organizeDirectory dir (start w) in
  ∀ name x,
    world r !! PathOps.join dir name = Some x →
    eligible (world r) dir name = false ∧
    (x = Dir ∨
     ∃ content, x = File content ∧ (name = "main.js" ∨ Path.extname name = "")).
Proof.
  intros Hok r name x Hx.
  destruct (run_result _ _ Hok) as (_ & Hsweep & _). fold r in Hsweep.
  assert (fateOf (world r) dir name = Skipped) as Hfate.
  { destruct (sweep_top_level _ _ _ _ _ _ _ Hsweep Hx) as [->|Hbefore].
    - unfold fateOf. by rewrite Hx.
    - destruct (sweep_settles _ _ _ _ _ name Hsweep eq_refl) as [?|?];
        [|done|congruence].
      apply elem_of_children. by exists x. }
  apply fate_skipped in Hfate as [Hno Hkind]. split; [done|].
  destruct Hkind as [?|[content Hfile]]; [left; congruence|].
  right. exists content. split; [congruence|].
  unfold eligible in Hno. rewrite Hfile in Hno.
  apply andb_false_iff in Hno as [Hself|Hext].
  - left. apply negb_false_iff in Hself. by apply bool_decide_eq_true in Hself.
  - right. apply truthy_false in Hext. unfold fileExtensionOf in Hext.
    exact (proj1 (toLowerCase_empty _) Hext).
Qed.

Lemma nothing_left_to_move_witness :
  let r := organizeDirectory bagunca (start scenario) in
  eligible scenario bagunca "notes.txt" = true ∧
  eligible (world r) bagunca "run" = false ∧
  (File "#!/bin/sh" = Dir ∨
   ∃ content, File "#!/bin/sh" = File content ∧
              ("run" = "main.js" ∨ Path.extname "run" = "")).
Proof.
  intros r. split; [vm_compute; reflexivity|].
  apply (nothing_left_to_move bagunca scenario); vm_compute; reflexivity.
Defined.

(** X9. Whatever a run does, the only entries it adds to the target
    directory are category folders: an entry found there afterwards was
    there before, unchanged, or it is a directory with the name of the
    category of an entry to move, at a name that was free. *)
Theorem only_category_folders_added (dir : path) (w : gmap path node)
    (name : string) (x : node) :
  let r := organizeDirectory dir (start w) in
  world r !! PathOps.join dir name = Some x →
  w !! PathOps.join dir name = Some x ∨
  (x = Dir ∧ w !! PathOps.join dir name = None ∧ name ∈ folders ∧
   ∃ item, eligible w dir item = true ∧ categoryOf item = name).
Proof.
  intros r Hx. unfold r in Hx.
  destruct (organizeDirectory_world dir w) as [Hsame|(ok & _ & Hsweep)].
  { left. by rewrite Hsame in Hx. }
  destruct (sweep_added _ _ _ _ _ _ _ Hsweep Hx) as [?|(-> & item & _ & Hel & <-)];
    [by left|].
  destruct (w !! PathOps.join dir (categoryOf item)) as [y|] eqn:Hy.
  - left. pose proof (sweep_keeps_others _ _ _ _ _ _ _ Hsweep Hy
                        (category_not_eligible _ _ _)) as Hkept.
    congruence.
  - right. split_and!; [done | done | apply getDestinationFolder_range |].
    by exists item.
Qed.

Lemma only_category_folders_added_witness :
  scenario !! PathOps.join bagunca "imagens" = Some Dir ∨
  (Dir = Dir ∧ scenario !! PathOps.join bagunca "imagens" = None ∧
   "imagens" ∈ folders ∧
   ∃ item, eligible scenario bagunca item = true ∧ categoryOf item = "imagens").
Proof.
  apply (only_category_folders_added bagunca scenario "imagens" Dir).
  vm_compute; reflexivity.
Defined.

(** X10. Whatever a run does, it changes nothing but the paths of the
    entries it is to move, their destinations and their category folders.
    In particular nothing outside the target directory changes, nor the
    directory itself, nor anything more than two levels below it. *)
Theorem untouched_paths (dir : path) (w : gmap path node) :
  let r := organizeDirectory dir (start w) in
  (∀ p,
     (∀ item, eligible w dir item = true →
        p ≠ PathOps.join dir item ∧
        p ≠ PathOps.join (PathOps.join dir (categoryOf item)) item ∧
        p ≠ PathOps.join dir (categoryOf item)) →
     world r !! p = w !! p) ∧
  (∀ p,
     MemFs.strip dir p = None ∨ (length p ≤ length dir)%nat ∨
     (length dir + 2 < length p)%nat →
     world r !! p = w !! p).
Proof.
  intros r.
  assert (∀ p,
     (∀ item, eligible w dir item = true →
        p ≠ PathOps.join dir item ∧ p ≠ destinationOf dir item ∧
        p ≠ PathOps.join dir (categoryOf item)) →
     world r !! p = w !! p) as Hframe.
  { intros p Hp. unfold r.
    destruct (organizeDirectory_world dir w) as [->|(ok & _ & Hsweep)]; [done|].
    eapply sweep_frame; [done|]. intros item _ Hel. by apply Hp. }
  split; [exact Hframe|].
  intros p Hp. apply Hframe. intros item _.
  assert (length (PathOps.join dir item) = S (length dir)) as H1.
  { unfold PathOps.join. rewrite length_app. simpl. lia. }
  assert (length (PathOps.join dir (categoryOf item)) = S (length dir)) as H2.
  { unfold PathOps.join. rewrite length_app. simpl. lia. }
  assert (length (destinationOf dir item) = S (S (length dir))) as H3.
  { unfold destinationOf, PathOps.join. rewrite !length_app. simpl. lia. }
  destruct Hp as [Hout|[Hshort|Hdeep]].
  - split_and!; intros ->; unfold destinationOf, PathOps.join in Hout;
      rewrite <- ?app_assoc in Hout;
      by rewrite (proj2 (strip_spec _ _ _) eq_refl) in Hout.
  - split_and!; intros ->; lia.
  - split_and!; intros ->; lia.
Qed.

Lemma untouched_paths_witness :
  let r := organizeDirectory bagunca (start scenario) in
  world r !! ["home"; "u"; "bagunca"; "backup"; "old.txt"]
    = scenario !! ["home"; "u"; "bagunca"; "backup"; "old.txt"] ∧
  world r !! ["home"; "u"] = scenario !! ["home"; "u"].
Proof.
  intros r. destruct (untouched_paths bagunca scenario) as [Hframe Hfar].
  split.
  - apply Hframe. intros item Hel. split_and!.
    + intros Heq%(f_equal length). unfold PathOps.join in Heq.
      rewrite length_app in Heq. simpl in Heq. lia.
    + unfold PathOps.join, bagunca. simpl. intros [= Hcat Hitem].
      rewrite <- Hitem in Hcat. vm_compute in Hcat. discriminate.
    + intros Heq%(f_equal length). unfold PathOps.join in Heq.
      rewrite length_app in Heq. simpl in Heq. lia.
  - apply Hfar. right. left. simpl. lia.
Defined.

(** X11. When the loop body throws for an entry, that entry and every entry
    after it in the listing are, at the end of the run, what and where they
    were: the failing file is not lost, and nothing later has been moved. *)
Theorem failed_run_leaves_rest_in_place (dir : path) (w : gmap path node)
    (pre post : list string) (item : string)
    (s1 sF : process (gmap path node)) (e : SystemError) :
  fs_readdir dir w = inr (pre ++ item :: post) →
  forEachItem dir pre (listed dir w) = (s1, inr ()) →
  processItem dir item s1 = (sF, inl e) →
  let r := organizeDirectory dir (start w) in
  ∀ name, name ∈ item :: post →
    world r !! PathOps.join dir name = w !! PathOps.join dir name.
Proof.
  intros Hrd Hpre Hitem r name Hname.
  pose proof (readdir_inv _ _ _ Hrd) as [Hdir Hlist].
  assert (NoDup (pre ++ item :: post)) as Hnd.
  { rewrite Hlist. apply NoDup_children. }
  assert (is_Some (w !! PathOps.join dir name)) as Hsome.
  { apply elem_of_children. rewrite <- Hlist. apply elem_of_app. by right. }
  apply NoDup_app in Hnd as (_ & Hdisj & Hnd). apply NoDup_cons in Hnd as [Hfirst _].
  assert (name ∉ pre) as Hnot by (intros Hin; by apply (Hdisj name Hin)).
  pose proof (forEachItem_sweep dir _ (listed dir w) _ _ Hdir Hpre) as Hsweep.
  simpl in Hsweep.
  assert (world s1 !! dir = Some Dir) as Hdir1 by (by eapply sweep_keeps_directories).
  pose proof (sweep_other_entry _ _ _ _ _ _ Hsweep Hnot Hsome) as Hkept.
  assert (world r = after dir item (world s1)) as ->.
  { unfold r. rewrite (organizeDirectory_loop _ _ _ Hrd). fold (listed dir w).
    rewrite (forEachItem_aborts _ _ _ _ _ _ _ _ Hpre Hitem).
    destruct (catchBlock_rest e sF) as (-> & _). by eapply processItem_world. }
  rewrite <- Hkept. apply elem_of_cons in Hname as [->|Hin].
  - apply after_failed_entry.
    rewrite processItem_memfs in Hitem by done.
    by destruct (fateOf (world s1) dir item).
  - apply after_other_entry; [congruence | by rewrite Hkept].
Qed.

Lemma failed_run_leaves_rest_in_place_witness :
  let r := organizeDirectory bagunca (start dangling) in
  world r !! PathOps.join bagunca "atalho.pdf" = Some BrokenLink ∧
  world r !! PathOps.join bagunca "song.mp3" = Some (File "la la").
Proof.
  intros r.
  assert (fs_readdir bagunca dangling
          = inr (["notes.txt"; "main.js"] ++ "atalho.pdf" :: ["photo.JPG"; "song.mp3"]))
    as Hrd by (vm_compute; reflexivity).
  set (s0 := listed bagunca dangling).
  set (s1 := (forEachItem bagunca ["notes.txt"; "main.js"] s0).1).
  set (sF := (processItem bagunca "atalho.pdf" s1).1).
  set (e := MemFs.error_at "ENOENT" "stat" "'/home/u/bagunca/atalho.pdf'").
  assert (forEachItem bagunca ["notes.txt"; "main.js"] s0 = (s1, inr ())) as Hpre.
  { unfold s1. destruct (forEachItem _ _ s0) as [s r1] eqn:Hloop.
    f_equal. change r1 with (s, r1).2. rewrite <- Hloop.
    vm_compute; reflexivity. }
  assert (processItem bagunca "atalho.pdf" s1 = (sF, inl e)) as Hitem.
  { unfold sF. destruct (processItem _ _ s1) as [s r1] eqn:Hstep.
    f_equal. change r1 with (s, r1).2. rewrite <- Hstep.
    vm_compute; reflexivity. }
  pose proof (failed_run_leaves_rest_in_place _ _ _ _ _ _ _ _ Hrd Hpre Hitem) as Hrest.
  fold r in Hrest. split.
  - rewrite (Hrest "atalho.pdf") by left. vm_compute; reflexivity.
  - rewrite (Hrest "song.mp3") by (do 2 right; left). vm_compute; reflexivity.
Defined.

(** X12. No run, failed or not, loses a file of the target directory:
    afterwards the file is either where it was, or, being an entry to move,
    in its category folder under the same name, in both cases with its
    content. *)
Theorem no_entry_is_lost (dir : path) (w : gmap path node)
    (name content : string) :
  w !! PathOps.join dir name = Some (File content) →
  let r := organizeDirectory dir (start w) in
  world r !! PathOps.join dir name = Some (File content) ∨
  (eligible w dir name = true ∧
   world r !! PathOps.join dir name = None ∧
   world r !! PathOps.join (PathOps.join dir (categoryOf name)) name
     = Some (File content)).
Proof.
  intros Hname r.
  destruct (run_entry _ _ _ _ Hname) as [?|(? & ? & ? & _)]; [by left | by right].
Qed.

Lemma no_entry_is_lost_witness :
  let r := organizeDirectory bagunca (start dangling) in
  (world r !! PathOps.join bagunca "photo.JPG" = Some (File "jpeg data") ∨
   (eligible dangling bagunca "photo.JPG" = true ∧
    world r !! PathOps.join bagunca "photo.JPG" = None ∧
    world r !! PathOps.join (PathOps.join bagunca (categoryOf "photo.JPG")) "photo.JPG"
      = Some (File "jpeg data"))) ∧
  world r !! PathOps.join bagunca "photo.JPG" = Some (File "jpeg data") ∧
  world r !! PathOps.join bagunca "notes.txt" = None.
Proof.
  intros r. split_and!.
  - apply (no_entry_is_lost bagunca dangling "photo.JPG" "jpeg data").
    vm_compute; reflexivity.
  - vm_compute; reflexivity.
  - vm_compute; reflexivity.
Defined.

(** X13. No conflict is checked for.  For an entry to move: if a file of
    its name is already in the category folder, a run that goes through
    puts the entry's content in its place; if a directory of its name is
    there, or if the name of its category is taken by a file of the target
    directory, no run goes through, the obstacle stays and so does the
    entry. *)
Theorem destination_taken (dir : path) (w : gmap path node) (item : string) :
  eligible w dir item = true →
  let r := organizeDirectory dir (start w) in
  (∀ old,
     w !! destinationOf dir item = Some (File old) →
     thrown dir (start w) = None →
     ∃ content,
       w !! PathOps.join dir item = Some (File content) ∧
       world r !! destinationOf dir item = Some (File content) ∧
       world r !! PathOps.join dir item = None) ∧
  (w !! destinationOf dir item = Some Dir →
     thrown dir (start w) ≠ None ∧
     world r !! destinationOf dir item = Some Dir ∧
     world r !! PathOps.join dir item = w !! PathOps.join dir item) ∧
  (∀ content,
     w !! PathOps.join dir (categoryOf item) = Some (File content) →
     thrown dir (start w) ≠ None ∧
     world r !! PathOps.join dir (categoryOf item) = Some (File content) ∧
     world r !! PathOps.join dir item = w !! PathOps.join dir item).
Proof.
  intros Hel r. subst r.
  pose proof (proj1 (eligible_spec _ _ _) Hel) as ([c Hc] & _).
  split_and!.
  - intros old _ Hok.
    destruct (run_moves _ _ _ Hok Hel) as (content & ? & ? & ? & _).
    by exists content.
  - intros Hdst.
    pose proof (run_keeps_directories dir _ _ Hdst) as Hkept.
    split_and!; [|done|].
    + intros Hok. destruct (run_moves _ _ _ Hok Hel) as (? & _ & Hmoved & _).
      congruence.
    + destruct (run_entry _ _ _ _ Hc) as [?|(_ & _ & Hmoved & _)];
        congruence.
  - intros content Hfolder.
    destruct (run_keeps_others dir w _ _ Hfolder (category_not_eligible _ _ _))
      as [Hkept _].
    split_and!; [|done|].
    + intros Hok. destruct (run_moves _ _ _ Hok Hel) as (? & _ & _ & _ & Hdir).
      congruence.
    + destruct (run_entry _ _ _ _ Hc) as [?|(_ & _ & _ & Hdir)];
        congruence.
Qed.

Lemma destination_taken_witness :
  (∃ content,
     crowded !! PathOps.join bagunca "notes.txt" = Some (File content) ∧
     world (organizeDirectory bagunca (start crowded))
       !! destinationOf bagunca "notes.txt" = Some (File content) ∧
     crowded !! destinationOf bagunca "notes.txt" = Some (File "old")) ∧
  thrown bagunca (start nested) ≠ None ∧
  thrown bagunca (start blocked) ≠ None.
Proof.
  split_and!.
  - destruct (destination_taken bagunca crowded "notes.txt") as (Hfile & _ & _).
    { vm_compute; reflexivity. }
    destruct (Hfile "old") as (content & Hsrc & Hdst & _).
    { vm_compute; reflexivity. }
    { vm_compute; reflexivity. }
    exists content. split_and!; [exact Hsrc | exact Hdst | vm_compute; reflexivity].
  - destruct (destination_taken bagunca nested "notes.txt") as (_ & Hdir & _).
    { vm_compute; reflexivity. }
    apply Hdir. vm_compute; reflexivity.
  - destruct (destination_taken bagunca blocked "photo.JPG") as (_ & _ & Hfolder).
    { vm_compute; reflexivity. }
    apply (Hfolder "not a folder"). vm_compute; reflexivity.
Defined.
